(** * You-Yun-Bei front end: loading stack, notification queue, config store,
      device-path reconciliation and quick-action sound preferences.

    A shallow embedding of the TypeScript of
    - src/composables/useGlobalLoading.ts (loading stack, notification queue),
    - the config store composable (refreshConfig / saveConfig),
    - src/pages/Management/[name].vue (checkCurrentDeviceSavePaths,
      copyPathsFromDevice),
    - src/pages/Settings.vue (importFromDevice, ensureQuickActionDefaults,
      the sound-mode computed properties),
    with the properties of the specification stated over it. *)

From Stdlib Require Import ZArith NArith String Ascii.
From stdpp Require Import gmap list fin_maps.

Open Scope N_scope.
Open Scope list_scope.

(* ===================================================================== *)
(** ** JavaScript strings *)
(* ===================================================================== *)

(** A JavaScript string is a sequence of UTF-16 code units. *)
Module Js.

Abbreviation jsstring := (list N).

(** An ASCII literal as a JavaScript string. *)
Definition str (s : string) : jsstring :=
  map N_of_ascii (list_ascii_of_string s).

(** The code units [String.prototype.trim] strips: ECMAScript WhiteSpace
    and LineTerminator. *)
Definition isWhiteSpace (c : N) : bool :=
  (9 <=? c) && (c <=? 13)
  || (c =? 32) || (c =? 160) || (c =? 5760)
  || (8192 <=? c) && (c <=? 8202)
  || (c =? 8232) || (c =? 8233) || (c =? 8239) || (c =? 8287)
  || (c =? 12288) || (c =? 65279).

Fixpoint trimStart (s : jsstring) : jsstring :=
  match s with
  | [] => []
  | c :: r => if isWhiteSpace c then trimStart r else s
  end.

Definition trimEnd (s : jsstring) : jsstring :=
  rev (trimStart (rev s)).

Definition trim (s : jsstring) : jsstring := trimEnd (trimStart s).

(** ToBoolean on a string: only the empty string is falsy. *)
Definition truthy (s : jsstring) : bool :=
  match s with [] => false | _ :: _ => true end.

(** [s === ''] *)
Definition isEmpty (s : jsstring) : bool :=
  match s with [] => true | _ :: _ => false end.

(** Every code unit is white space (the empty string included). *)
Definition blank (s : jsstring) : bool := forallb isWhiteSpace s.

(** [s.startsWith(p)] *)
Fixpoint startsWith (s p : jsstring) : bool :=
  match p, s with
  | [], _ => true
  | _ :: _, [] => false
  | a :: p', b :: s' => (a =? b) && startsWith s' p'
  end.

(** [s.includes(p)] *)
Fixpoint includes (s p : jsstring) : bool :=
  startsWith s p ||
  match s with
  | [] => false
  | _ :: s' => includes s' p
  end.

(** [s.substring(0, n)] for a natural [n]. *)
Definition substring0 (n : nat) (s : jsstring) : jsstring := take n s.

(** *** Property names

    An object read at a key it does not own answers with what it inherits.
    For the names below that is a member of [Object.prototype] (a function;
    the prototype itself for ["__proto__"]): a truthy value that is not a
    string, where any other absent key gives [undefined]. An assignment at
    ["__proto__"] creates no entry.

    The finite maps of this development hold the own properties of the
    objects the code uses as maps. Lookup, insert and delete on them are the
    code's [o[k]], [o[k] = v] and [delete o[k]] at every key that is not
    one of these names, a [plainKey]; where a definition reads an object at
    a device id through a plain lookup, the theorems about it assume the id
    to be a plain key. *)
Definition prototypeMembers : list jsstring :=
  [str "constructor"; str "__proto__"; str "hasOwnProperty";
   str "isPrototypeOf"; str "propertyIsEnumerable"; str "toLocaleString";
   str "toString"; str "valueOf"; str "__defineGetter__";
   str "__defineSetter__"; str "__lookupGetter__"; str "__lookupSetter__"].

(** [k in {}]: every object inherits a member of this name. *)
Definition inherited (k : jsstring) : bool :=
  existsb (λ m, bool_decide (k = m)) prototypeMembers.


(** What [o[k]] evaluates to on an object whose own properties are [m]. *)
Inductive Read (A : Type) :=
| Own (v : A)   (* the own property *)
| Member        (* the member of [Object.prototype] of that name *)
| Undefined.
Arguments Own {A} v.
Arguments Member {A}.
Arguments Undefined {A}.

Definition read {A : Type} (m : gmap jsstring A) (k : jsstring) : Read A :=
  match m !! k with
  | Some v => Own v
  | None => if inherited k then Member else Undefined
  end.

End Js.

Import Js.

(* ===================================================================== *)
(** ** The types of the backend bindings the pages use *)
(* ===================================================================== *)

Module Bindings.

Inductive UnitType := Folder | File.

(** [paths] maps a device id to the path of the unit on that device. The
    pages guard every use with [unit.paths?.] or [!unit.paths], so an absent
    mapping is [None]; an absent key is a [None] lookup ([undefined] at a
    [plainKey]). *)
Record SaveUnit := {
  unit_type : UnitType;
  paths : option (gmap jsstring jsstring);
  delete_before_apply : bool
}.

Record Game := {
  name : jsstring;
  save_paths : option (list SaveUnit);
  game_paths : option (gmap jsstring jsstring)
}.

Record Device := { id : jsstring; device_name : jsstring }.

(** [{status: "ok", data} | {status: "error", error}] *)
Inductive Result (A : Type) := Ok (data : A) | Err (error : jsstring).
Arguments Ok {A} data.
Arguments Err {A} error.

(** How an awaited promise settles. *)
Inductive Awaited (A : Type) := Resolves (value : A) | Rejects.
Arguments Resolves {A} value.
Arguments Rejects {A}.

(** A user-visible text: a translated key [$t(key)] or a raw string. *)
Inductive Message := T (key : string) | Raw (s : jsstring).

(** The observable calls the pages make. *)
Inductive Effect :=
| LogError
| ShowError (m : Message)
| ShowSuccess (m : Message)
| ShowInfo (m : Message)
| GetCurrentDeviceInfo
| Confirm
| Prompt (options : list jsstring)
| GetLocalConfig
| SetConfig.

(** [m?.[id]] for a [plainKey]: the entry of device [id], [None] when the
    mapping or the key is absent. *)
Definition entry (m : option (gmap jsstring jsstring)) (id : jsstring)
  : option jsstring :=
  match m with
  | Some mp => mp !! id
  | None => None
  end.

(** [saveConfig()] of the config store, seen from a page: one [setConfig]
    command; a backend error or a rejected call is logged and notified inside
    [saveConfig], which never throws. *)
Definition saveConfig_effects (r : Awaited (Result unit)) : list Effect :=
  SetConfig ::
  match r with
  | Resolves (Ok _) => []
  | Resolves (Err _) | Rejects =>
      [LogError; ShowError (T "error.set_config_failed")]
  end.

(** Number of [saveConfig] calls recorded in a log. *)
Definition isSetConfig (e : Effect) : bool :=
  match e with SetConfig => true | _ => false end.

Definition saveConfigCalls (log : list Effect) : nat :=
  length (List.filter isSetConfig log).



End Bindings.

Import Bindings.

(* ===================================================================== *)
(** ** Device-path reconciliation (pages/Management/[name].vue) *)
(* ===================================================================== *)

Module Management.

(** Game objects live in a store and are referred to by reference: the
    page's [game.value] is the very object found in [config.value.games], so
    a write through one is seen through the other. *)
Abbreviation loc := nat.

Record Page := {
  heap : gmap loc Game;          (* the game objects *)
  games : list loc;              (* config.value.games *)
  game : option loc;             (* game.value; [None] is undefined *)
  currentDevice : option Device; (* currentDevice.value; [None] is null *)
  drawer : bool;                 (* drawer.value *)
  log : list Effect              (* calls made so far *)
}.

Definition emit (es : list Effect) (s : Page) : Page :=
  {| heap := heap s; games := games s; game := game s;
     currentDevice := currentDevice s; drawer := drawer s;
     log := log s ++ es |}.

(** The object [game.value] refers to. *)
Definition theGame (s : Page) : option (loc * Game) :=
  match game s with
  | Some l => match heap s !! l with Some g => Some (l, g) | None => None end
  | None => None
  end.

(** [fetchCurrentDevice()]: on a backend error or a rejected call the
    previous [currentDevice] stays. *)
Definition fetchCurrentDevice (r : Awaited (Result Device)) (s : Page) : Page :=
  match r with
  | Resolves (Ok d) =>
      {| heap := heap s; games := games s; game := game s;
         currentDevice := Some d; drawer := drawer s;
         log := log s ++ [GetCurrentDeviceInfo] |}
  | Resolves (Err e) => emit [GetCurrentDeviceInfo; ShowError (Raw e)] s
  | Rejects =>
      emit [GetCurrentDeviceInfo; LogError;
            ShowError (T "error.get_device_info_failed")] s
  end.

(** [!m[id] || !m[id].trim()], for a [plainKey]: at the name of an
    inherited member that [m] does not own, [.trim()] throws. *)
Definition emptyAt (m : gmap jsstring jsstring) (id : jsstring) : bool :=
  match m !! id with
  | None => true
  | Some p => negb (truthy p) || negb (truthy (trim p))
  end.

(** One fill-gap copy on a device-to-path mapping, with the [updated] flag:
    [if (m?.[source]?.trim()) { if (!m[target] || !m[target].trim())
       { m[target] = m[source]; updated = true } }], for a source and a
    target that are [plainKey]s. *)
Definition copyEntry (source target : jsstring)
    (m : option (gmap jsstring jsstring))
  : option (gmap jsstring jsstring) * bool :=
  match m with
  | Some mp =>
      match mp !! source with
      | Some p =>
          if truthy (trim p) && emptyAt mp target
          then (Some (<[target := p]> mp), true)
          else (m, false)
      | None => (m, false)
      end
  | None => (m, false)
  end.

Definition copyUnit (source target : jsstring) (unit : SaveUnit)
  : SaveUnit * bool :=
  let '(m, updated) := copyEntry source target (paths unit) in
  ({| unit_type := unit_type unit; paths := m;
      delete_before_apply := delete_before_apply unit |}, updated).

(** [save_paths.forEach(unit => ...)], returning whether any unit set
    [updated]. *)
Fixpoint copyUnits (source target : jsstring) (units : list SaveUnit)
  : list SaveUnit * bool :=
  match units with
  | [] => ([], false)
  | unit :: rest =>
      let '(unit', b) := copyUnit source target unit in
      let '(rest', b') := copyUnits source target rest in
      (unit' :: rest', b || b')
  end.

(** The two copy steps of [copyPathsFromDevice] on the game object. *)
Definition copyGame (source target : jsstring) (g : Game) : Game * bool :=
  let '(units, b1) :=
    match save_paths g with
    | Some units =>
        let '(units', b) := copyUnits source target units in (Some units', b)
    | None => (None, false)
    end in
  let '(gp, b2) := copyEntry source target (game_paths g) in
  ({| name := name g; save_paths := units; game_paths := gp |}, b1 || b2).

(** [g.name === n] for the game object at [l]. *)
Definition nameIs (h : gmap loc Game) (n : jsstring) (l : loc) : bool :=
  match h !! l with
  | Some g => bool_decide (name g = n)
  | None => false
  end.

(** [config.value.games.findIndex(g => g.name === n)]; [None] is -1. *)
Definition findIndex (h : gmap loc Game) (gs : list loc) (n : jsstring)
  : option nat :=
  fst <$> list_find (λ l, nameIs h n l = true) gs.

(** [copyPathsFromDevice(sourceDeviceId)]. [save] is how the [setConfig]
    command behind [saveConfig()] settles. The [catch] around
    [await saveConfig()] is never entered: [saveConfig] handles its own
    failures. *)
Definition copyPathsFromDevice (sourceDeviceId : jsstring)
    (save : Awaited (Result unit)) (s : Page) : Page :=
  match currentDevice s, theGame s with
  | Some dev, Some (l, g) =>
      let targetDeviceId := id dev in
      let '(g', updated) := copyGame sourceDeviceId targetDeviceId g in
      let h := <[l := g']> (heap s) in
      if updated then
        match findIndex h (games s) (name g') with
        | Some index =>
            {| heap := h; games := <[index := l]> (games s); game := game s;
               currentDevice := currentDevice s; drawer := true;
               log := log s ++ saveConfig_effects save
                       ++ [ShowSuccess (T "manage.paths_copied_success")] |}
        | None =>
            {| heap := h; games := games s; game := game s;
               currentDevice := currentDevice s; drawer := drawer s;
               log := log s |}
        end
      else
        {| heap := h; games := games s; game := game s;
           currentDevice := currentDevice s; drawer := drawer s;
           log := log s |}
  | _, _ => s
  end.

(** [save_paths.every(unit => !unit.paths || !unit.paths[deviceId] ||
      unit.paths[deviceId].trim() === '')], for a [plainKey]. *)
Definition allPathsEmpty (deviceId : jsstring) (units : list SaveUnit) : bool :=
  forallb
    (λ unit,
       match paths unit with
       | None => true
       | Some m =>
           match m !! deviceId with
           | None => true
           | Some p => negb (truthy p) || isEmpty (trim p)
           end
       end)
    units.

(** [Set.prototype.add] on an insertion-ordered set. *)
Definition setAdd (x : jsstring) (s : list jsstring) : list jsstring :=
  if bool_decide (x ∈ s) then s else s ++ [x].

(** The body of the [Object.entries(unit.paths).forEach] callback. The
    entries are enumerated in the order of [map_to_list]. *)
Definition collectEntry (deviceId : jsstring) (acc : list jsstring)
    (e : jsstring * jsstring) : list jsstring :=
  let '(id, path) := e in
  if negb (bool_decide (id = deviceId)) && truthy path
     && negb (isEmpty (trim path))
  then setAdd id acc
  else acc.

Definition collectUnit (deviceId : jsstring) (acc : list jsstring)
    (unit : SaveUnit) : list jsstring :=
  match paths unit with
  | Some m => foldl (collectEntry deviceId) acc (map_to_list m)
  | None => acc
  end.

(** The set [devicesWithPaths] that [checkCurrentDeviceSavePaths] builds:
    only [game.value.save_paths] is scanned. *)
Definition devicesWithPaths (deviceId : jsstring) (units : list SaveUnit)
  : list jsstring :=
  foldl (collectUnit deviceId) [] units.

(** The action an [ElMessageBox] dialog settles with. *)
Inductive Action := ActConfirm | ActCancel | ActClose.

(** How the awaited calls of one run settle. *)
Record Answers := {
  device : Awaited (Result Device);   (* commands.getCurrentDeviceInfo() *)
  confirm : Awaited Action;           (* ElMessageBox.confirm(...) *)
  prompt : Awaited jsstring;          (* ElMessageBox.prompt(...), its value *)
  save : Awaited (Result unit)        (* commands.setConfig(...) *)
}.

(** [{ value: id, label: id.substring(0, 8) + '...' }] *)
Definition deviceOption (id : jsstring) : jsstring * jsstring :=
  (id, substring0 8 id ++ str "...").

(** [d.value === value || d.value.startsWith(value) ||
     d.label.includes(value)] *)
Definition matchesInput (value : jsstring) (d : jsstring * jsstring) : bool :=
  bool_decide (fst d = value) || startsWith (fst d) value
  || includes (snd d) value.

(** [checkCurrentDeviceSavePaths()], run to completion. *)
Definition checkCurrentDeviceSavePaths (a : Answers) (s0 : Page) : Page :=
  let s := fetchCurrentDevice (device a) s0 in
  match currentDevice s, theGame s with
  | Some dev, Some (_, g) =>
      match save_paths g with
      | None => s
      | Some units =>
          let deviceId := id dev in
          if negb (allPathsEmpty deviceId units) then s
          else
            let candidates := devicesWithPaths deviceId units in
            if (length candidates =? 0)%nat then s
            else
              let s1 := emit [Confirm] s in
              match confirm a with
              | Resolves ActConfirm =>
                  let deviceOptions := map deviceOption candidates in
                  match deviceOptions with
                  | [d] => copyPathsFromDevice (fst d) (save a) s1
                  | _ =>
                      let s2 := emit [Prompt (map fst deviceOptions)] s1 in
                      match prompt a with
                      | Resolves value =>
                          match find (matchesInput value) deviceOptions with
                          | Some d => copyPathsFromDevice (fst d) (save a) s2
                          | None => s2
                          end
                      | Rejects => s2
                      end
                  end
              | Resolves _ | Rejects => s1
              end
      end
  | _, _ => s
  end.

End Management.

(* ===================================================================== *)
(** ** The global loading stack (composables/useGlobalLoading.ts) *)
(* ===================================================================== *)

Module GlobalLoading.

(** [messageStack.value.push(message ?? $t('common.operation_in_progress'))] *)
Definition startLoading (message : option jsstring)
    (messageStack : list Message) : list Message :=
  messageStack ++
  [match message with
   | Some m => Raw m
   | None => T "common.operation_in_progress"
   end].

(** [if (messageStack.value.length > 0) messageStack.value.pop()] *)
Definition stopLoading (messageStack : list Message) : list Message :=
  if (0 <? length messageStack)%nat then removelast messageStack
  else messageStack.

Definition isLoading (messageStack : list Message) : bool :=
  (0 <? length messageStack)%nat.

Definition loadingMessage (messageStack : list Message) : Message :=
  if (length messageStack =? 0)%nat then T "common.operation_in_progress"
  else List.last messageStack (T "common.operation_in_progress").

(** What [operation()] does when it is invoked: it throws at once, or it
    returns a promise that settles later. *)
Inductive Invocation := Throws | Returns.

(** How the promise of an operation settles. *)
Inductive Settled := Fulfilled | Rejected.

(** [withLoading] from its entry to its [await]: [startLoading(message)],
    then [operation()] is invoked inside the [try]; when that throws, the
    [finally] block runs at once. *)
Definition withLoading_enter (message : option jsstring) (inv : Invocation)
    (messageStack : list Message) : list Message :=
  let st := startLoading message messageStack in
  match inv with
  | Returns => st
  | Throws => stopLoading st
  end.

(** [withLoading] after its [await]: the [finally] block runs
    [stopLoading()] whether the operation fulfilled or rejected, and the
    result or the error is passed on to the caller. *)
Definition withLoading_resume (o : Settled) (messageStack : list Message)
  : list Message * Settled :=
  (stopLoading messageStack, o).

(** Overlapping calls: call [i] of [withLoading] is made, or the operation
    of call [i] settles. *)
Inductive Event :=
| Call (i : nat) (message : option jsstring) (inv : Invocation)
| Settle (i : nat) (o : Settled).

Record World := {
  messageStack : list Message;
  started : gset nat;   (* calls made *)
  settled : gset nat    (* calls whose operation has thrown or settled *)
}.

Definition initial : World :=
  {| messageStack := []; started := ∅; settled := ∅ |}.

(** One event; [None] when it cannot happen (a call id used twice, an
    operation settling that is not pending). *)
Definition step (w : World) (e : Event) : option World :=
  match e with
  | Call i message inv =>
      if bool_decide (i ∈ started w) then None
      else Some
        {| messageStack := withLoading_enter message inv (messageStack w);
           started := {[i]} ∪ started w;
           settled := match inv with
                      | Throws => {[i]} ∪ settled w
                      | Returns => settled w
                      end |}
  | Settle i o =>
      if bool_decide (i ∈ started w) && negb (bool_decide (i ∈ settled w))
      then Some
        {| messageStack := fst (withLoading_resume o (messageStack w));
           started := started w;
           settled := {[i]} ∪ settled w |}
      else None
  end.

Fixpoint run (w : World) (es : list Event) : option World :=
  match es with
  | [] => Some w
  | e :: rest =>
      match step w e with
      | Some w' => run w' rest
      | None => None
      end
  end.

(** The calls that have started and not yet settled. *)
Definition pending (w : World) : gset nat := started w ∖ settled w.

(** The stack is as high as the number of pending calls, and only started
    calls settle. *)
Definition balanced (w : World) : Prop :=
  settled w ⊆ started w ∧ length (messageStack w) = size (pending w).

(** The calls a trace makes. *)
Fixpoint startedIn (es : list Event) : gset nat :=
  match es with
  | [] => ∅
  | Call i _ _ :: rest => {[i]} ∪ startedIn rest
  | Settle _ _ :: rest => startedIn rest
  end.

(** The calls of a trace whose operation threw or settled. *)
Fixpoint settledIn (es : list Event) : gset nat :=
  match es with
  | [] => ∅
  | Call i _ Throws :: rest => {[i]} ∪ settledIn rest
  | Call _ _ Returns :: rest => settledIn rest
  | Settle i _ :: rest => {[i]} ∪ settledIn rest
  end.

(** Two overlapping calls; the first one rejects while the second is
    pending. *)
Definition overlapping : list Event :=
  [Call 0 None Returns; Call 1 (Some (str "saving")) Returns;
   Settle 0 Rejected; Settle 1 Fulfilled].

End GlobalLoading.

(* ===================================================================== *)
(** ** The notification queue (composables/useNotification) *)
(* ===================================================================== *)

Module Notification.

Inductive NotificationType := success | warning | error | info.

Record NotificationOptions := {
  title : option jsstring;
  duration : option Z;
  message : jsstring;
  persistent : option bool
}.

Record QueuedNotification := {
  type : NotificationType;
  options : NotificationOptions;
  qid : jsstring
}.

(** The parameters of one [ElNotification] call. *)
Record NotificationParams := {
  p_title : Message;
  p_message : jsstring;
  p_type : NotificationType;
  p_duration : Z
}.

Record ActiveNotification := { aid : jsstring; handle : NotificationParams }.

Definition defaultDurations (ty : NotificationType) : Z :=
  match ty with
  | success => 3000
  | warning => 3000
  | error => 3000
  | info => 3000
  end.

Definition defaultTitles (ty : NotificationType) : Message :=
  match ty with
  | success => T "misc.success"
  | warning => T "misc.warning"
  | error => T "misc.error"
  | info => T "misc.info"
  end.

(** The destructuring with defaults at the head of [show]. *)
Definition params (ty : NotificationType) (o : NotificationOptions)
  : NotificationParams :=
  {| p_title := match title o with
                | Some t => Raw t
                | None => defaultTitles ty
                end;
     p_message := message o;
     p_type := ty;
     p_duration := match duration o with
                   | Some d => d
                   | None =>
                       match persistent o with
                       | Some true => 0
                       | Some false | None => defaultDurations ty
                       end
                   end |}.

Record Notifier := {
  messageQueue : list QueuedNotification;
  activeNotifications : list ActiveNotification;
  isProcessing : bool;
  rendered : list (Z * NotificationParams); (* ElNotification calls, timed *)
  timers : list Z;  (* wake-up times of the pending 100ms waits, oldest first *)
  clock : Z         (* current time in ms *)
}.

Definition idle (now : Z) : Notifier :=
  {| messageQueue := []; activeNotifications := []; isProcessing := false;
     rendered := []; timers := []; clock := now |}.

(** [show(type, options, id)] *)
Definition show (ty : NotificationType) (o : NotificationOptions)
    (i : jsstring) (s : Notifier) : Notifier :=
  let h := params ty o in
  {| messageQueue := messageQueue s;
     activeNotifications := activeNotifications s ++ [{| aid := i; handle := h |}];
     isProcessing := isProcessing s;
     rendered := rendered s ++ [(clock s, h)];
     timers := timers s;
     clock := clock s |}.

(** The [while] loop of [processQueue] from its test to the next [await]
    (a 100ms timer is set and the worker is suspended) or to its exit
    ([isProcessing = false]). *)
Definition loop (s : Notifier) : Notifier :=
  match messageQueue s with
  | notification :: rest =>
      let s1 := show (type notification) (options notification)
                     (qid notification)
                  {| messageQueue := rest;
                     activeNotifications := activeNotifications s;
                     isProcessing := isProcessing s;
                     rendered := rendered s;
                     timers := timers s;
                     clock := clock s |} in
      {| messageQueue := messageQueue s1;
         activeNotifications := activeNotifications s1;
         isProcessing := isProcessing s1;
         rendered := rendered s1;
         timers := timers s1 ++ [clock s1 + 100]%Z;
         clock := clock s1 |}
  | [] =>
      {| messageQueue := [];
         activeNotifications := activeNotifications s;
         isProcessing := false;
         rendered := rendered s;
         timers := timers s;
         clock := clock s |}
  end.

(** [processQueue()] up to its first suspension. *)
Definition processQueue (s : Notifier) : Notifier :=
  if isProcessing s || (length (messageQueue s) =? 0)%nat then s
  else
    loop {| messageQueue := messageQueue s;
            activeNotifications := activeNotifications s;
            isProcessing := true;
            rendered := rendered s;
            timers := timers s;
            clock := clock s |}.

(** [addToQueue(type, options)]; [i] is the identifier [generateId()]
    draws. *)
Definition addToQueue (ty : NotificationType) (o : NotificationOptions)
    (i : jsstring) (s : Notifier) : Notifier :=
  processQueue
    {| messageQueue := messageQueue s ++ [{| type := ty; options := o; qid := i |}];
       activeNotifications := activeNotifications s;
       isProcessing := isProcessing s;
       rendered := rendered s;
       timers := timers s;
       clock := clock s |}.

(** What happens in the event loop: a [show*] call at the current time, the
    oldest 100ms timer firing (the suspended worker goes on, at its due time
    or later when the clock has passed it), or time passing. *)
Inductive Event :=
| Show (ty : NotificationType) (o : NotificationOptions) (i : jsstring)
| Timer
| Wait (dt : Z).

Definition step (s : Notifier) (e : Event) : option Notifier :=
  match e with
  | Show ty o i => Some (addToQueue ty o i s)
  | Timer =>
      match timers s with
      | due :: others =>
          Some (loop {| messageQueue := messageQueue s;
                        activeNotifications := activeNotifications s;
                        isProcessing := isProcessing s;
                        rendered := rendered s;
                        timers := others;
                        clock := Z.max (clock s) due |})
      | [] => None
      end
  | Wait dt =>
      if (0 <=? dt)%Z
      then Some {| messageQueue := messageQueue s;
                   activeNotifications := activeNotifications s;
                   isProcessing := isProcessing s;
                   rendered := rendered s;
                   timers := timers s;
                   clock := (clock s + dt)%Z |}
      else None
  end.

Fixpoint run (s : Notifier) (es : list Event) : option Notifier :=
  match es with
  | [] => Some s
  | e :: rest =>
      match step s e with
      | Some s' => run s' rest
      | None => None
      end
  end.

(** The notifications a trace enqueues, in call order. *)
Fixpoint calls (es : list Event) : list QueuedNotification :=
  match es with
  | [] => []
  | Show ty o i :: rest => {| type := ty; options := o; qid := i |} :: calls rest
  | _ :: rest => calls rest
  end.

(** What [show] renders for a queued notification. *)
Definition paramsOf (n : QueuedNotification) : NotificationParams :=
  params (type n) (options n).

(** A burst of [show*] calls issued synchronously. *)
Definition burst (ns : list QueuedNotification) : list Event :=
  map (λ n, Show (type n) (options n) (qid n)) ns.

(** A notification as it is shown: its identifier and its parameters. *)
Definition display (n : QueuedNotification) : jsstring * NotificationParams :=
  (qid n, paramsOf n).

Definition displayed (s : Notifier) : list (jsstring * NotificationParams) :=
  map (λ a, (aid a, handle a)) (activeNotifications s).

Definition activeOf (ns : list QueuedNotification) : list ActiveNotification :=
  map (λ n, {| aid := qid n; handle := paramsOf n |}) ns.

(** The notifications [ns] rendered one every 100ms from time [t] on. *)
Fixpoint timesFrom (t : Z) (ns : list QueuedNotification)
  : list (Z * NotificationParams) :=
  match ns with
  | [] => []
  | n :: rest => (t, paramsOf n) :: timesFrom (t + 100) rest
  end.

(** Three notifications of mixed types, the second one persistent, the
    third with its own title and duration. *)
Definition mixed : list QueuedNotification :=
  [ {| type := error;
       options := {| title := None; duration := None;
                     message := str "load failed"; persistent := None |};
       qid := str "k3x" |};
    {| type := success;
       options := {| title := None; duration := None;
                     message := str "saved"; persistent := Some true |};
       qid := str "p0q" |};
    {| type := info;
       options := {| title := Some (str "Note"); duration := Some 500%Z;
                     message := str "synced"; persistent := Some true |};
       qid := str "z7a" |} ].

(** The three of [mixed] shown at time 0, a late second timer. *)
Definition mixedTrace : list Event :=
  burst mixed ++ [Timer; Wait 130; Timer; Timer].

Definition mixedEnd : Notifier :=
  match run (idle 0) mixedTrace with
  | Some s => s
  | None => idle 0
  end.

(** Shown and waiting notifications, in this order. *)
Definition line (s : Notifier) : list (jsstring * NotificationParams) :=
  displayed s ++ map display (messageQueue s).

(** The time of the latest [ElNotification] call. *)
Definition lastRender (s : Notifier) : option Z :=
  last (map fst (rendered s)).

(** At most one worker: none, and then nothing is queued and the flag is
    down; or one, suspended in the wait it started at its latest render. *)
Definition single_worker (s : Notifier) : Prop :=
  match timers s with
  | [] =>
      isProcessing s = false ∧ messageQueue s = []
      ∧ ∀ t, lastRender s = Some t → (t + 100 <= clock s)%Z
  | [due] =>
      isProcessing s = true ∧ lastRender s = Some (due - 100)%Z
      ∧ (due - 100 <= clock s)%Z
  | _ :: _ :: _ => False
  end.

(** Render times at least 100ms apart, in order. *)
Fixpoint paced (ts : list Z) : Prop :=
  match ts with
  | [] => True
  | t1 :: rest =>
      match rest with
      | [] => True
      | t2 :: _ => (t1 + 100 <= t2)%Z
      end ∧ paced rest
  end.

Definition orderly (s : Notifier) : Prop :=
  single_worker s
  ∧ paced (map fst (rendered s))
  ∧ map snd (rendered s) = map snd (displayed s).

End Notification.

(* ===================================================================== *)
(** ** The config store (composables/useConfig) *)
(* ===================================================================== *)

Module ConfigStore.

Section Store.

(** The configuration document type and the constant [DEFAULT_CONFIG] come
    from the generated bindings. *)
Context {Config : Type} (DEFAULT_CONFIG : Config).

(** What [config.value] refers to: the module's one [defaultConfig] object,
    or an object a backend call returned. *)
Inductive ConfigRef := TheDefault | Loaded (data : Config).

Record Store := {
  defaultConfig : Config;  (* the contents of the object [defaultConfig] *)
  config : ConfigRef;      (* config.value *)
  isLoading : bool;        (* isLoading.value *)
  log : list Effect
}.

(** Module load: [const defaultConfig = DEFAULT_CONFIG],
    [config = ref(defaultConfig)], [isLoading = ref(false)]. *)
Definition initial : Store :=
  {| defaultConfig := DEFAULT_CONFIG; config := TheDefault;
     isLoading := false; log := [] |}.

(** The document read through [config.value]. *)
Definition document (s : Store) : Config :=
  match config s with
  | TheDefault => defaultConfig s
  | Loaded data => data
  end.

(** An edit in place through [config.value] (as the pages make): it lands
    in whichever object [config.value] refers to. *)
Definition edit (f : Config → Config) (s : Store) : Store :=
  match config s with
  | TheDefault =>
      {| defaultConfig := f (defaultConfig s); config := TheDefault;
         isLoading := isLoading s; log := log s |}
  | Loaded data =>
      {| defaultConfig := defaultConfig s; config := Loaded (f data);
         isLoading := isLoading s; log := log s |}
  end.

(** [refreshConfig] up to its [await]. *)
Definition refreshConfig_enter (s : Store) : Store :=
  {| defaultConfig := defaultConfig s; config := config s;
     isLoading := true; log := log s ++ [GetLocalConfig] |}.

(** [refreshConfig] after [commands.getLocalConfig()] settles: the [try]
    body or the [catch] block, then [finally]. *)
Definition refreshConfig_resume (r : Awaited (Result Config)) (s : Store)
  : Store :=
  match r with
  | Resolves (Ok data) =>
      {| defaultConfig := defaultConfig s; config := Loaded data;
         isLoading := false; log := log s |}
  | Resolves (Err _) | Rejects =>
      {| defaultConfig := defaultConfig s; config := TheDefault;
         isLoading := false;
         log := log s ++ [LogError; ShowError (T "error.config_load_failed")] |}
  end.

Definition refreshConfig (r : Awaited (Result Config)) (s : Store) : Store :=
  refreshConfig_resume r (refreshConfig_enter s).

(** [saveConfig()] *)
Definition saveConfig (r : Awaited (Result unit)) (s : Store) : Store :=
  {| defaultConfig := defaultConfig s; config := config s;
     isLoading := isLoading s; log := log s ++ saveConfig_effects r |}.

(** The two ways [commands.getLocalConfig()] fails. *)
Inductive Failure := BackendError (error : jsstring) | Thrown.

Definition failed (f : Failure) : Awaited (Result Config) :=
  match f with
  | BackendError e => Resolves (Err e)
  | Thrown => Rejects
  end.


End Store.

Arguments ConfigRef Config : clear implicits.
Arguments Store Config : clear implicits.

End ConfigStore.

(* ===================================================================== *)
(** ** The settings page (pages/Settings.vue) *)
(* ===================================================================== *)

Module Settings.

(** [{kind: "default"} | {kind: "file", path}]; the page reads the path as
    [source.path ?? ""], so it may be missing. *)
Inductive QuickActionSoundSource :=
| SoundDefault
| SoundFile (path : option jsstring).

Record QuickActionSoundSlots := {
  success : option QuickActionSoundSource;
  failure : option QuickActionSoundSource
}.

(** The fields of [config.value.quick_action] the page normalizes. *)
Record QuickActionsSettings := {
  enable_sound : option bool;
  enable_notification : option bool;
  sounds : option QuickActionSoundSlots
}.

Inductive SoundModeOption := ModeDefault | ModeFile.

Definition defaultSlots : QuickActionSoundSlots :=
  {| success := Some SoundDefault; failure := Some SoundDefault |}.

(** [ensureQuickActionDefaults()] on [config.value?.quick_action]. *)
Definition ensureQuickActionDefaults (qa : option QuickActionsSettings)
  : option QuickActionsSettings :=
  match qa with
  | None => None
  | Some settings =>
      Some
        {| enable_sound :=
             match enable_sound settings with
             | None => Some true
             | Some b => Some b
             end;
           enable_notification :=
             match enable_notification settings with
             | None => Some true
             | Some b => Some b
             end;
           sounds :=
             match sounds settings with
             | None => Some defaultSlots
             | Some slots => Some slots
             end |}
  end.

(** [ensureSoundSlots()]: the normalized [quick_action] and the slots
    object in it. *)
Definition ensureSoundSlots (qa : option QuickActionsSettings)
  : option QuickActionsSettings * option QuickActionSoundSlots :=
  let qa' := ensureQuickActionDefaults qa in
  (qa', match qa' with Some settings => sounds settings | None => None end).

(** [source?.kind === "file"] *)
Definition isFileSource (source : option QuickActionSoundSource) : bool :=
  match source with
  | Some (SoundFile _) => true
  | Some SoundDefault | None => false
  end.

(** [isFileSource(source) ? source.path ?? "" : ""] *)
Definition pathOf (source : option QuickActionSoundSource) : jsstring :=
  match source with
  | Some (SoundFile (Some p)) => p
  | Some (SoundFile None) => []
  | Some SoundDefault | None => []
  end.

Definition cloneSoundSource (source : option QuickActionSoundSource)
  : QuickActionSoundSource :=
  if isFileSource source then SoundFile (Some (pathOf source))
  else SoundDefault.

(** Writing the slots object back into the settings it belongs to. *)
Definition withSounds (settings : QuickActionsSettings)
    (slots : QuickActionSoundSlots) : QuickActionsSettings :=
  {| enable_sound := enable_sound settings;
     enable_notification := enable_notification settings;
     sounds := Some slots |}.

Definition setSuccess (v : QuickActionSoundSource)
    (slots : QuickActionSoundSlots) : QuickActionSoundSlots :=
  {| success := Some v; failure := failure slots |}.

Definition setFailure (v : QuickActionSoundSource)
    (slots : QuickActionSoundSlots) : QuickActionSoundSlots :=
  {| success := success slots; failure := Some v |}.

(** A setter body: [const slots = ensureSoundSlots(); if (!slots) return;
    <assignment to a slot>]. *)
Definition updateSlots (f : QuickActionSoundSlots → QuickActionSoundSlots)
    (qa : option QuickActionsSettings) : option QuickActionsSettings :=
  match ensureSoundSlots qa with
  | (Some settings, Some slots) => Some (withSounds settings (f slots))
  | (qa', _) => qa'
  end.

Definition successSoundMode_get (qa : option QuickActionsSettings)
  : SoundModeOption :=
  match qa with
  | Some {| sounds := Some slots |} =>
      if isFileSource (success slots) then ModeFile else ModeDefault
  | _ => ModeDefault
  end.

Definition successSoundMode_set (mode : SoundModeOption)
    (qa : option QuickActionsSettings) : option QuickActionsSettings :=
  updateSlots
    (λ slots,
       match mode with
       | ModeDefault => setSuccess SoundDefault slots
       | ModeFile =>
           let current := success slots in
           let existingPath := pathOf current in
           setSuccess (SoundFile (Some existingPath)) slots
       end)
    qa.

Definition failureSoundMode_get (qa : option QuickActionsSettings)
  : SoundModeOption :=
  match qa with
  | Some {| sounds := Some slots |} =>
      if isFileSource (failure slots) then ModeFile else ModeDefault
  | _ => ModeDefault
  end.

Definition failureSoundMode_set (mode : SoundModeOption)
    (qa : option QuickActionsSettings) : option QuickActionsSettings :=
  updateSlots
    (λ slots,
       match mode with
       | ModeDefault => setFailure SoundDefault slots
       | ModeFile =>
           let current := failure slots in
           let existingPath := pathOf current in
           setFailure (SoundFile (Some existingPath)) slots
       end)
    qa.

Definition successSoundPath_get (qa : option QuickActionsSettings) : jsstring :=
  match qa with
  | Some {| sounds := Some slots |} => pathOf (success slots)
  | _ => []
  end.

Definition successSoundPath_set (value : jsstring)
    (qa : option QuickActionsSettings) : option QuickActionsSettings :=
  updateSlots (setSuccess (SoundFile (Some value))) qa.

Definition failureSoundPath_get (qa : option QuickActionsSettings) : jsstring :=
  match qa with
  | Some {| sounds := Some slots |} => pathOf (failure slots)
  | _ => []
  end.

Definition failureSoundPath_set (value : jsstring)
    (qa : option QuickActionsSettings) : option QuickActionsSettings :=
  updateSlots (setFailure (SoundFile (Some value))) qa.

(** *** importFromDevice *)

(** [if (m && m[deviceId]) m[currentDeviceId] = m[deviceId]], for two
    [plainKey]s: an inherited member is truthy too, and would be copied. *)
Definition importEntry (deviceId currentDeviceId : jsstring)
    (m : option (gmap jsstring jsstring)) : option (gmap jsstring jsstring) :=
  match m with
  | Some mp =>
      match mp !! deviceId with
      | Some p => if truthy p then Some (<[currentDeviceId := p]> mp) else m
      | None => m
      end
  | None => m
  end.

Definition importUnit (deviceId currentDeviceId : jsstring) (savePath : SaveUnit)
  : SaveUnit :=
  {| unit_type := unit_type savePath;
     paths := importEntry deviceId currentDeviceId (paths savePath);
     delete_before_apply := delete_before_apply savePath |}.

(** The body of [for (const game of config.value.games)];
    [game.save_paths || []] iterates nothing when [save_paths] is missing. *)
Definition importGame (deviceId currentDeviceId : jsstring) (g : Game) : Game :=
  {| name := name g;
     save_paths :=
       match save_paths g with
       | Some units => Some (map (importUnit deviceId currentDeviceId) units)
       | None => None
       end;
     game_paths := importEntry deviceId currentDeviceId (game_paths g) |}.

Record Page := {
  games : option (list Game);  (* config.value.games; [None] when missing *)
  currentDevice : Device;      (* currentDevice.value *)
  log : list Effect
}.

(** [importFromDevice(deviceId)]: [confirm] is how the confirmation dialog
    settles (a dismissed dialog rejects with a string, not an [Error]). *)
Definition importFromDevice (deviceId : jsstring)
    (confirm : Awaited Management.Action) (save : Awaited (Result unit))
    (s : Page) : Page :=
  match confirm with
  | Rejects =>
      {| games := games s; currentDevice := currentDevice s;
         log := log s ++ [Confirm; ShowInfo (T "settings.operation_canceled")] |}
  | Resolves _ =>
      let currentDeviceId := id (currentDevice s) in
      let thrown :=
        {| games := games s; currentDevice := currentDevice s;
           log := log s ++ [Confirm; LogError;
                            ShowError (T "error.import_paths_failed")] |} in
      match games s with
      | Some gs =>
          if negb (truthy currentDeviceId) then thrown
          else if bool_decide (currentDeviceId = deviceId) then thrown
          else
            {| games := Some (map (importGame deviceId currentDeviceId) gs);
               currentDevice := currentDevice s;
               log := log s ++ [Confirm] ++ saveConfig_effects save
                       ++ [ShowSuccess (T "settings.import_paths_success")] |}
      | None => thrown
      end
  end.

End Settings.

(* ===================================================================== *)
(** ** The vocabulary of the specification *)
(* ===================================================================== *)

Module Spec.

Import Management.

(** Device [id] has a non-empty path in the mapping (non-empty after
    trimming). *)
Definition hasPath (m : option (gmap jsstring jsstring)) (id : jsstring) : Prop :=
  ∃ p, entry m id = Some p ∧ blank p = false.

(** The entry of device [id] is absent or empty (nothing but white space). *)
Definition noPath (m : option (gmap jsstring jsstring)) (id : jsstring) : Prop :=
  entry m id = None ∨ ∃ q, entry m id = Some q ∧ blank q = true.









(** [quick_action?.sounds?.success] and [.failure] *)
Definition successSlot (qa : option Settings.QuickActionsSettings)
  : option Settings.QuickActionSoundSource :=
  match qa with
  | Some settings =>
      match Settings.sounds settings with
      | Some slots => Settings.success slots
      | None => None
      end
  | None => None
  end.

Definition failureSlot (qa : option Settings.QuickActionsSettings)
  : option Settings.QuickActionSoundSource :=
  match qa with
  | Some settings =>
      match Settings.sounds settings with
      | Some slots => Settings.failure slots
      | None => None
      end
  | None => None
  end.

End Spec.

(* ===================================================================== *)
(** ** Sample data *)
(* ===================================================================== *)

Module Samples.

Import Management.

Definition devA : jsstring := str "device-a".
Definition devB : jsstring := str "device-b".

Definition laptop : Device := {| id := devB; device_name := str "laptop" |}.

Definition folderUnit (m : gmap jsstring jsstring) : SaveUnit :=
  {| unit_type := Folder; paths := Some m; delete_before_apply := false |}.

(** Device A has ["/a/save"], device B an empty path for the same unit. *)
Definition gapGame : Game :=
  {| name := str "Celeste";
     save_paths := Some [folderUnit (<[devA := str "/a/save"]> (<[devB := str ""]> ∅))];
     game_paths := Some (<[devA := str "/a/celeste.exe"]> ∅) |}.



(** Device B already has ["/b/save"]. *)
Definition filledGame : Game :=
  {| name := str "Celeste";
     save_paths := Some [folderUnit (<[devA := str "/a/save"]> (<[devB := str "/b/save"]> ∅))];
     game_paths := Some (<[devA := str "/a/celeste.exe"]> ∅) |}.

(** Only the launch-path mapping knows device A. *)
Definition launchOnlyGame : Game :=
  {| name := str "Celeste";
     save_paths := Some [folderUnit (<[devB := str ""]> ∅)];
     game_paths := Some (<[devA := str "/a/celeste.exe"]> ∅) |}.

(** The management page of game [g] on device B, the game being the one
    object of [config.value.games]. *)
Definition pageOf (g : Game) : Page :=
  {| heap := <[0%nat := g]> ∅; games := [0%nat]; game := Some 0%nat;
     currentDevice := Some laptop; drawer := false; log := [] |}.


(** A [quick_action] with a sound file for each effect. *)
Definition wavSounds : Settings.QuickActionsSettings :=
  {| Settings.enable_sound := Some true;
     Settings.enable_notification := Some true;
     Settings.sounds :=
       Some {| Settings.success :=
                 Some (Settings.SoundFile (Some (str "x.wav")));
               Settings.failure :=
                 Some (Settings.SoundFile (Some (str "y.wav"))) |} |}.

(** A [quick_action] whose [sounds] is the empty object [{}]. *)
Definition emptySounds : Settings.QuickActionsSettings :=
  {| Settings.enable_sound := None; Settings.enable_notification := None;
     Settings.sounds := Some {| Settings.success := None;
                                Settings.failure := None |} |}.

(** The settings page on device B with one game in the configuration. *)
Definition settingsOf (g : Game) : Settings.Page :=
  {| Settings.games := Some [g]; Settings.currentDevice := laptop;
     Settings.log := [] |}.

End Samples.

(* ===================================================================== *)
(** ** More of the management page (pages/Management/[name].vue) *)
(* ===================================================================== *)

Module ManagementMore.

Import Management.

(** [on_drawer_save_changes(updatedGame)]: [updatedGame] is the object the
    drawer emits (its deep copy of the game), already in the store.
    [saveConfig()] never rejects, so the [.then] branch always runs. *)
Definition on_drawer_save_changes (updatedGame : loc)
    (save : Awaited (Result unit)) (s : Page) : Page :=
  match heap s !! updatedGame with
  | Some g =>
      match findIndex (heap s) (games s) (name g) with
      | Some index =>
          {| heap := heap s; games := <[index := updatedGame]> (games s);
             game := Some updatedGame; currentDevice := currentDevice s;
             drawer := false;
             log := log s ++ saveConfig_effects save
                     ++ [ShowSuccess (T "manage.save_paths_updated")] |}
      | None =>
          {| heap := heap s; games := games s; game := Some updatedGame;
             currentDevice := currentDevice s; drawer := false;
             log := log s ++ [ShowError (T "error.game_not_found")] |}
      end
  | None => s
  end.

(** How [launch_game()] ends. *)
Inductive Launch :=
| Opened (path : jsstring)   (* commands.openFileOrFolder(path) was called *)
| OpenedInherited            (* it was called with an inherited member *)
| NoLaunchPath               (* the error notification, no command *)
| TypeError.                 (* [game.value] is undefined: the call throws *)

(** [launch_game()]: [opened] is how [openFileOrFolder] settles; a rejected
    call is not caught and shows nothing. [game_paths[id] || ""] is the
    recorded path, or, at an id that names an inherited member and has no
    entry, that member. *)
Definition launch_game (opened : Awaited (Result unit)) (s : Page)
  : Page * Launch :=
  let noPath := (emit [ShowError (T "manage.no_launch_path_error")] s,
                 NoLaunchPath) in
  let call (how : Launch) :=
    (match opened with
     | Resolves (Err e) => emit [ShowError (Raw e)] s
     | Resolves (Ok _) | Rejects => s
     end, how) in
  match currentDevice s with
  | Some dev =>
      match theGame s with
      | Some (_, g) =>
          match game_paths g with
          | Some m =>
              match read m (id dev) with
              | Own p => if truthy p then call (Opened p) else noPath
              | Member => call OpenedInherited
              | Undefined => noPath
              end
          | None => noPath
          end
      | None => (s, TypeError)
      end
  | None => noPath
  end.

End ManagementMore.

(* ===================================================================== *)
(** ** Creating and restoring snapshots (pages/Management/[name].vue) *)
(* ===================================================================== *)

Module Snapshots.

Import GlobalLoading.

Local Open Scope nat_scope.

Section Page.

(** The translation function [$t]. *)
Variable t : string → jsstring.

(** What the two functions do besides changing their flags. *)
Inductive Act :=
| Notify (e : Effect)
| CreateSnapshot (describe : jsstring)  (* commands.createSnapshot(game, describe) *)
| RestoreSnapshot (date : jsstring)     (* commands.restoreSnapshot(game, date) *)
| RefreshBackupsInfo                    (* refresh_backups_info() *)
| SetTimeout.                           (* setTimeout(..., 1000) *)

Record Saves := {
  backup_button_time_limit : bool;
  backup_button_backup_limit : bool;
  apply_button_apply_limit : bool;
  describe : jsstring;
  messageStack : list Message;  (* the global loading stack *)
  creating : nat;    (* createSnapshot commands awaiting their result *)
  restoring : nat;   (* restoreSnapshot commands awaiting their result *)
  timeouts : nat;    (* pending one-second timers *)
  acts : list Act
}.

Definition initial : Saves :=
  {| backup_button_time_limit := true; backup_button_backup_limit := true;
     apply_button_apply_limit := true; describe := []; messageStack := [];
     creating := 0; restoring := 0; timeouts := 0; acts := [] |}.

Definition note (a : list Act) (s : Saves) : Saves :=
  {| backup_button_time_limit := backup_button_time_limit s;
     backup_button_backup_limit := backup_button_backup_limit s;
     apply_button_apply_limit := apply_button_apply_limit s;
     describe := describe s; messageStack := messageStack s;
     creating := creating s; restoring := restoring s;
     timeouts := timeouts s; acts := acts s ++ a |}.

(** [send_save_to_background()] up to [await withLoading(...)]: the three
    guards, then the flags, the loading message and the command. *)
Definition send_save_to_background (s0 : Saves) : Saves :=
  let s := note [Notify (ShowInfo (T "manage.wait_for_prompt_hint"))] s0 in
  if negb (backup_button_time_limit s)
  then note [Notify (ShowError (T "manage.save_too_fast_error"))] s
  else if negb (backup_button_backup_limit s)
  then note [Notify (ShowError (T "manage.last_backup_unfinished_error"))] s
  else if negb (apply_button_apply_limit s)
  then note [Notify (ShowError (T "manage.last_overwrite_unfinished_error"))] s
  else
    {| backup_button_time_limit := false;
       backup_button_backup_limit := false;
       apply_button_apply_limit := apply_button_apply_limit s;
       describe := describe s;
       messageStack :=
         withLoading_enter (Some (t "manage.creating_backup")) Returns
           (messageStack s);
       creating := Datatypes.S (creating s); restoring := restoring s;
       timeouts := timeouts s;
       acts := acts s ++ [CreateSnapshot (describe s)] |}.

(** [send_save_to_background()] after [createSnapshot] settles. An error
    result is notified and the function goes on; a rejected call leaves
    [withLoading] through its [finally] and ends the function there. *)
Definition send_save_resume (r : Awaited (Result unit)) (s : Saves) : Saves :=
  match r with
  | Resolves res =>
      {| backup_button_time_limit := backup_button_time_limit s;
         backup_button_backup_limit := true;
         apply_button_apply_limit := apply_button_apply_limit s;
         describe := [];
         messageStack := fst (withLoading_resume Fulfilled (messageStack s));
         creating := pred (creating s); restoring := restoring s;
         timeouts := Datatypes.S (timeouts s);
         acts := acts s
                 ++ [Notify match res with
                            | Ok _ => ShowSuccess (T "manage.backup_success")
                            | Err e => ShowError (Raw e)
                            end;
                     RefreshBackupsInfo; SetTimeout] |}
  | Rejects =>
      {| backup_button_time_limit := backup_button_time_limit s;
         backup_button_backup_limit := backup_button_backup_limit s;
         apply_button_apply_limit := apply_button_apply_limit s;
         describe := describe s;
         messageStack := fst (withLoading_resume Rejected (messageStack s));
         creating := pred (creating s); restoring := restoring s;
         timeouts := timeouts s; acts := acts s |}
  end.

(** [apply_save(date)] up to [await withLoading(...)]. *)
Definition apply_save (date : jsstring) (s0 : Saves) : Saves :=
  let s := note [Notify (ShowInfo (T "manage.wait_for_prompt_hint"))] s0 in
  if negb (apply_button_apply_limit s)
  then note [Notify (ShowError (T "manage.last_overwrite_unfinished_error"))] s
  else if negb (backup_button_backup_limit s)
  then note [Notify (ShowError (T "manage.last_backup_unfinished_error"))] s
  else
    {| backup_button_time_limit := backup_button_time_limit s;
       backup_button_backup_limit := backup_button_backup_limit s;
       apply_button_apply_limit := false;
       describe := describe s;
       messageStack :=
         withLoading_enter (Some (t "manage.restoring_backup")) Returns
           (messageStack s);
       creating := creating s; restoring := Datatypes.S (restoring s);
       timeouts := timeouts s;
       acts := acts s ++ [RestoreSnapshot date] |}.

(** [apply_save(date)] after [restoreSnapshot] settles. *)
Definition apply_save_resume (r : Awaited (Result unit)) (s : Saves) : Saves :=
  match r with
  | Resolves res =>
      {| backup_button_time_limit := backup_button_time_limit s;
         backup_button_backup_limit := backup_button_backup_limit s;
         apply_button_apply_limit := true;
         describe := describe s;
         messageStack := fst (withLoading_resume Fulfilled (messageStack s));
         creating := creating s; restoring := pred (restoring s);
         timeouts := timeouts s;
         acts := acts s
                 ++ [Notify match res with
                            | Ok _ => ShowSuccess (T "manage.recover_success")
                            | Err _ => ShowError (T "manage.recover_failed")
                            end;
                     RefreshBackupsInfo] |}
  | Rejects =>
      {| backup_button_time_limit := backup_button_time_limit s;
         backup_button_backup_limit := backup_button_backup_limit s;
         apply_button_apply_limit := apply_button_apply_limit s;
         describe := describe s;
         messageStack := fst (withLoading_resume Rejected (messageStack s));
         creating := creating s; restoring := pred (restoring s);
         timeouts := timeouts s; acts := acts s |}
  end.

(** What happens on the page. *)
Inductive Event :=
| ClickBackup                                  (* send_save_to_background() *)
| CreateSettles (r : Awaited (Result unit))
| ClickApply (date : jsstring)                 (* apply_save(date) *)
| RestoreSettles (r : Awaited (Result unit))
| Timeout                                      (* a one-second timer fires *)
| Describe (text : jsstring).                  (* the user types a description *)

Definition step (s : Saves) (e : Event) : option Saves :=
  match e with
  | ClickBackup => Some (send_save_to_background s)
  | CreateSettles r =>
      if 0 <? creating s then Some (send_save_resume r s) else None
  | ClickApply date => Some (apply_save date s)
  | RestoreSettles r =>
      if 0 <? restoring s then Some (apply_save_resume r s) else None
  | Timeout =>
      if 0 <? timeouts s
      then Some {| backup_button_time_limit := true;
                   backup_button_backup_limit := backup_button_backup_limit s;
                   apply_button_apply_limit := apply_button_apply_limit s;
                   describe := describe s; messageStack := messageStack s;
                   creating := creating s; restoring := restoring s;
                   timeouts := pred (timeouts s); acts := acts s |}
      else None
  | Describe text =>
      Some {| backup_button_time_limit := backup_button_time_limit s;
              backup_button_backup_limit := backup_button_backup_limit s;
              apply_button_apply_limit := apply_button_apply_limit s;
              describe := text; messageStack := messageStack s;
              creating := creating s; restoring := restoring s;
              timeouts := timeouts s; acts := acts s |}
  end.

Fixpoint run (s : Saves) (es : list Event) : option Saves :=
  match es with
  | [] => Some s
  | e :: rest =>
      match step s e with
      | Some s' => run s' rest
      | None => None
      end
  end.

Definition isCommand (a : Act) : bool :=
  match a with
  | CreateSnapshot _ | RestoreSnapshot _ => true
  | _ => false
  end.

(** The snapshot commands sent so far. *)
Definition commands (a : list Act) : nat := length (List.filter isCommand a).

(** At most one snapshot command is awaited, its flag is down, and the
    loading stack holds one message per awaited command. *)
Definition exclusive (s : Saves) : Prop :=
  creating s + restoring s ≤ 1
  ∧ (creating s = 1 → backup_button_backup_limit s = false)
  ∧ (restoring s = 1 → apply_button_apply_limit s = false)
  ∧ length (messageStack s) = creating s + restoring s.

End Page.

(** The state a trace leads to from the initial one, translations being
    the keys themselves. *)
Definition after (es : list Event) : Saves :=
  match run str initial es with
  | Some s => s
  | None => initial
  end.

(** A backup is running while the user asks for a restore and for another
    backup. *)
Definition busyTrace : list Event :=
  [ClickBackup; ClickApply (str "2024-01-01"); ClickBackup].

End Snapshots.

(* ===================================================================== *)
(** ** Which message the loading stack shows *)
(* ===================================================================== *)

Module LoadingOrder.

Import GlobalLoading.

(** [message ?? $t('common.operation_in_progress')] *)
Definition messageOf (message : option jsstring) : Message :=
  match message with
  | Some m => Raw m
  | None => T "common.operation_in_progress"
  end.

(** The calls that are pending, oldest first, each with its message. *)
Definition track (pl : list (nat * Message)) (e : Event)
  : list (nat * Message) :=
  match e with
  | Call i message Returns => pl ++ [(i, messageOf message)]
  | Call _ _ Throws => pl
  | Settle i _ => List.filter (λ x, negb (fst x =? i)%nat) pl
  end.

Definition pendingAfter (pl : list (nat * Message)) (es : list Event)
  : list (nat * Message) :=
  foldl track pl es.

(** Operations settle in the reverse order of their calls: each [Settle]
    is for the youngest pending call. *)
Fixpoint nested (pl : list (nat * Message)) (es : list Event) : Prop :=
  match es with
  | [] => True
  | e :: rest =>
      match e with
      | Settle i _ => ∃ m, last pl = Some (i, m)
      | Call _ _ _ => True
      end ∧ nested (track pl e) rest
  end.

(** The stack holds the messages of the pending calls, oldest first. *)
Definition mirrors (w : World) (pl : list (nat * Message)) : Prop :=
  messageStack w = map snd pl
  ∧ NoDup (map fst pl)
  ∧ ∀ i, i ∈ map fst pl → i ∈ started w.

(** Two nested calls, the inner one settled. *)
Definition nestedTrace : list Event :=
  [Call 0 None Returns; Call 1 (Some (str "saving")) Returns;
   Settle 1 Fulfilled].

End LoadingOrder.

(* ===================================================================== *)
(** ** Closing a notification (composables/useNotification) *)
(* ===================================================================== *)

Module NotificationClose.

Import Notification.

(** [closeNotification(id)]: the queue loses every entry with that id; the
    first active notification with that id, if any, is closed (its handle is
    returned here) and spliced out. *)
Definition closeNotification (i : jsstring) (s : Notifier)
  : Notifier * option NotificationParams :=
  let queue :=
    List.filter (λ item, negb (bool_decide (qid item = i))) (messageQueue s) in
  match list_find (λ n, aid n = i) (activeNotifications s) with
  | Some (index, n) =>
      ({| messageQueue := queue;
          activeNotifications := delete index (activeNotifications s);
          isProcessing := isProcessing s; rendered := rendered s;
          timers := timers s; clock := clock s |}, Some (handle n))
  | None =>
      ({| messageQueue := queue;
          activeNotifications := activeNotifications s;
          isProcessing := isProcessing s; rendered := rendered s;
          timers := timers s; clock := clock s |}, None)
  end.

(** The event loop with [closeNotification] calls added. *)
Inductive Event :=
| Queue (e : Notification.Event)
| Close (i : jsstring).

Definition step (s : Notifier) (e : Event) : option Notifier :=
  match e with
  | Queue e' => Notification.step s e'
  | Close i => Some (fst (closeNotification i s))
  end.

Fixpoint run (s : Notifier) (es : list Event) : option Notifier :=
  match es with
  | [] => Some s
  | e :: rest =>
      match step s e with
      | Some s' => run s' rest
      | None => None
      end
  end.

(** The [show*] calls of a trace, in call order. *)
Fixpoint shows (es : list Event) : list QueuedNotification :=
  match es with
  | [] => []
  | Queue (Show ty o i) :: rest =>
      {| type := ty; options := o; qid := i |} :: shows rest
  | _ :: rest => shows rest
  end.

(** What was rendered, then what waits. *)
Definition backlog (s : Notifier) : list NotificationParams :=
  map snd (rendered s) ++ map paramsOf (messageQueue s).

Definition steady (s : Notifier) : Prop :=
  single_worker s ∧ paced (map fst (rendered s)).

(** [mixed] is shown, the third notification being closed while it
    waits. *)
Definition closingTrace : list Event :=
  map Queue (burst mixed) ++ [Close (str "z7a"); Queue Timer; Queue Timer].

Definition closingEnd : Notifier :=
  match run (idle 0) closingTrace with
  | Some s => s
  | None => idle 0
  end.

End NotificationClose.

(* ===================================================================== *)
(** ** Sequences of operations on the config store *)
(* ===================================================================== *)

Module ConfigOps.

Import ConfigStore.

Section Ops.

Context {Config : Type}.

(** What the pages do with the store: a [refreshConfig()] (with the way
    [getLocalConfig] settles), an edit in place through [config.value], a
    [saveConfig()] (with the way [setConfig] settles). *)
Inductive Op :=
| Refresh (r : Awaited (Result Config))
| Edit (f : Config → Config)
| Save (r : Awaited (Result unit)).

Definition apply (s : Store Config) (o : Op) : Store Config :=
  match o with
  | Refresh r => refreshConfig r s
  | Edit f => edit f s
  | Save r => saveConfig r s
  end.

Definition runOps (ops : list Op) (s : Store Config) : Store Config :=
  foldl apply s ops.

(** Every edit is made while [config.value] is a loaded document. *)
Fixpoint editsLoaded (s : Store Config) (ops : list Op) : Prop :=
  match ops with
  | [] => True
  | o :: rest =>
      match o with
      | Edit _ => config s ≠ TheDefault
      | Refresh _ | Save _ => True
      end ∧ editsLoaded (apply s o) rest
  end.

(** The backend call of the operation failed. *)
Definition failure (o : Op) : bool :=
  match o with
  | Refresh (Resolves (Ok _)) | Save (Resolves (Ok _)) | Edit _ => false
  | Refresh _ | Save _ => true
  end.

Definition failures (ops : list Op) : nat := length (List.filter failure ops).

End Ops.

Arguments Op Config : clear implicits.

Definition isShowError (e : Effect) : bool :=
  match e with ShowError _ => true | _ => false end.

(** The error notifications in a log. *)
Definition errorsShown (log : list Effect) : nat :=
  length (List.filter isShowError log).

(** A load, an edit of the loaded document, a failing refresh, a failing
    save; documents are numbers here. *)
Definition sampleOps : list (Op nat) :=
  [Refresh (Resolves (Ok 5%nat)); Edit Datatypes.S; Refresh Rejects;
   Save (Resolves (Err (str "disk full")))].

End ConfigOps.

(* ===================================================================== *)
(** ** More of the sound preferences (pages/Settings.vue) *)
(* ===================================================================== *)

Module SettingsMore.

Import Settings.

(** What [buildSoundPreferences()] hands to the backend. *)
Record QuickActionSoundPreferences := {
  pref_enable_sound : bool;
  pref_success : QuickActionSoundSource;
  pref_failure : QuickActionSoundSource
}.

(** [buildSoundPreferences()]: the [quick_action] as [ensureSoundSlots]
    leaves it, and the value returned ([None] is undefined). *)
Definition buildSoundPreferences (qa : option QuickActionsSettings)
  : option QuickActionsSettings * option QuickActionSoundPreferences :=
  match qa with
  | None => (None, None)
  | Some _ =>
      match ensureSoundSlots qa with
      | (Some settings, Some slots) =>
          (Some settings,
           Some {| pref_enable_sound :=
                     match enable_sound settings with
                     | Some b => b
                     | None => true
                     end;
                   pref_success := cloneSoundSource (success slots);
                   pref_failure := cloneSoundSource (failure slots) |})
      | (qa', _) => (qa', None)
      end
  end.

Inductive SoundTarget := TargetSuccess | TargetFailure.

(** [chooseSoundFile(target)]: [chosen] is how
    [commands.chooseQuickActionSoundFile()] settles. *)
Definition chooseSoundFile (target : SoundTarget)
    (chosen : Awaited (Result jsstring)) (qa : option QuickActionsSettings)
  : option QuickActionsSettings * list Effect :=
  match chosen with
  | Resolves (Ok file_path) =>
      (updateSlots
         (match target with
          | TargetSuccess => setSuccess (SoundFile (Some file_path))
          | TargetFailure => setFailure (SoundFile (Some file_path))
          end) qa, [])
  | Resolves (Err _) => (updateSlots (λ slots, slots) qa, [])
  | Rejects =>
      (qa, [LogError; ShowError (T "error.choose_sound_file_error")])
  end.

(** A source as the backend expects it: a file source has its path. *)
Definition complete (source : QuickActionSoundSource) : Prop :=
  match source with
  | SoundFile None => False
  | SoundFile (Some _) | SoundDefault => True
  end.

End SettingsMore.

(* ===================================================================== *)
(** ** Device management (pages/Settings.vue, App.vue) *)
(* ===================================================================== *)

Module Devices.

(** The parts of the configuration document the device functions use;
    [None] is a missing field. *)
Record ConfigDoc := {
  devices : option (gmap jsstring Device);
  games : option (list Game)
}.

(** The settings page. *)
Record Admin := {
  config : option ConfigDoc;     (* config.value; [None] is null *)
  currentDevice : Device;
  otherDevices : list Device;
  log : list Effect
}.

(** [Object.values(config.value.devices).filter(device => device &&
      device.id !== current.id)]; the values are enumerated in the order of
    [map_to_list]. *)
Definition others (ds : gmap jsstring Device) (current : jsstring)
  : list Device :=
  List.filter (λ device, negb (bool_decide (id device = current)))
    (map snd (map_to_list ds)).

(** [fetchDeviceInfo()] *)
Definition fetchDeviceInfo (r : Awaited (Result Device)) (s : Admin) : Admin :=
  match r with
  | Resolves (Ok d) =>
      {| config := config s; currentDevice := d;
         otherDevices :=
           match config s with
           | Some {| devices := Some ds |} => others ds (id d)
           | _ => otherDevices s
           end;
         log := log s ++ [GetCurrentDeviceInfo] |}
  | Resolves (Err e) =>
      {| config := config s; currentDevice := currentDevice s;
         otherDevices := otherDevices s;
         log := log s ++ [GetCurrentDeviceInfo; ShowError (Raw e)] |}
  | Rejects =>
      {| config := config s; currentDevice := currentDevice s;
         otherDevices := otherDevices s;
         log := log s ++ [GetCurrentDeviceInfo; LogError;
                          ShowError (T "error.get_device_info_failed")] |}
  end.

(** [updateDeviceInfo()], for a current device whose id is a [plainKey];
    neither [saveConfig] nor [fetchDeviceInfo] throws, so the [catch] block
    is never entered. *)
Definition updateDeviceInfo (save : Awaited (Result unit))
    (fetch : Awaited (Result Device)) (s : Admin) : Admin :=
  match config s with
  | None => s
  | Some c =>
      let ds := match devices c with Some ds => ds | None => ∅ end in
      fetchDeviceInfo fetch
        {| config :=
             Some {| devices := Some (<[id (currentDevice s) := currentDevice s]> ds);
                     games := games c |};
           currentDevice := currentDevice s;
           otherDevices := otherDevices s;
           log := log s ++ saveConfig_effects save
                   ++ [ShowSuccess (T "settings.device_updated")] |}
  end.

(** [if (m && deviceId in m) delete m[deviceId]] *)
Definition forgetEntry (deviceId : jsstring)
    (m : option (gmap jsstring jsstring)) : option (gmap jsstring jsstring) :=
  match m with
  | Some mp => Some (delete deviceId mp)
  | None => None
  end.

Definition forgetUnit (deviceId : jsstring) (saveUnit : SaveUnit) : SaveUnit :=
  {| unit_type := unit_type saveUnit;
     paths := forgetEntry deviceId (paths saveUnit);
     delete_before_apply := delete_before_apply saveUnit |}.

(** The body of [for (const game of config.value.games)] in
    [deleteDevice]. *)
Definition forgetGame (deviceId : jsstring) (g : Game) : Game :=
  {| name := name g;
     save_paths :=
       match save_paths g with
       | Some units => Some (map (forgetUnit deviceId) units)
       | None => None
       end;
     game_paths := forgetEntry deviceId (game_paths g) |}.

(** [deleteDevice(deviceId)]. [config.value.devices[deviceId]] is truthy
    for a registered device and for an id that names an inherited member;
    [delete] and [in] then find no own entry to remove. *)
Definition deleteDevice (deviceId : jsstring)
    (confirm : Awaited Management.Action) (save : Awaited (Result unit))
    (fetch : Awaited (Result Device)) (s : Admin) : Admin :=
  let refused :=
    {| config := config s; currentDevice := currentDevice s;
       otherDevices := otherDevices s;
       log := log s ++ [ShowError (T "settings.delete_device_failed")] |} in
  match config s with
  | Some {| devices := Some ds; games := gs |} =>
      if bool_decide (id (currentDevice s) = deviceId) then refused
      else
        match read ds deviceId with
        | Undefined => refused
        | Own _ | Member =>
            match confirm with
            | Rejects =>
                {| config := config s; currentDevice := currentDevice s;
                   otherDevices := otherDevices s;
                   log := log s ++ [Confirm;
                                    ShowInfo (T "settings.operation_canceled")] |}
            | Resolves _ =>
                fetchDeviceInfo fetch
                  {| config :=
                       Some {| devices := Some (delete deviceId ds);
                               games :=
                                 match gs with
                                 | Some l => Some (map (forgetGame deviceId) l)
                                 | None => None
                                 end |};
                     currentDevice := currentDevice s;
                     otherDevices := otherDevices s;
                     log := log s ++ [Confirm] ++ saveConfig_effects save
                             ++ [ShowSuccess (T "settings.delete_device_success")] |}
            end
        end
  | _ => refused
  end.

(** *** App.vue *)

Record App := {
  app_config : option ConfigDoc;
  app_currentDevice : option Device;
  app_otherDevices : list Device;
  showDeviceSetupDialog : bool;
  defaultDeviceName : jsstring;
  app_log : list Effect
}.

(** [checkDeviceSetup()]; an error result of the backend is ignored, a
    rejected call is reported. [!config.value.devices[id]] holds when the
    devices have no entry under [id] and inherit no member of that name. *)
Definition checkDeviceSetup (r : Awaited (Result Device)) (s : App) : App :=
  match r with
  | Resolves (Ok d) =>
      let unknown :=
        match app_config s with
        | Some {| devices := Some ds |} =>
            match read ds (id d) with
            | Undefined => true
            | Own _ | Member => false
            end
        | Some {| devices := None |} => true
        | None => false
        end in
      {| app_config := app_config s; app_currentDevice := Some d;
         app_otherDevices :=
           match app_config s with
           | Some {| devices := Some ds |} => others ds (id d)
           | _ => app_otherDevices s
           end;
         showDeviceSetupDialog :=
           if unknown then true else showDeviceSetupDialog s;
         defaultDeviceName :=
           if unknown then device_name d else defaultDeviceName s;
         app_log := app_log s ++ [GetCurrentDeviceInfo] |}
  | Resolves (Err _) =>
      {| app_config := app_config s; app_currentDevice := app_currentDevice s;
         app_otherDevices := app_otherDevices s;
         showDeviceSetupDialog := showDeviceSetupDialog s;
         defaultDeviceName := defaultDeviceName s;
         app_log := app_log s ++ [GetCurrentDeviceInfo] |}
  | Rejects =>
      {| app_config := app_config s; app_currentDevice := app_currentDevice s;
         app_otherDevices := app_otherDevices s;
         showDeviceSetupDialog := showDeviceSetupDialog s;
         defaultDeviceName := defaultDeviceName s;
         app_log := app_log s ++ [GetCurrentDeviceInfo; LogError;
                                  ShowError (T "error.get_device_info_failed")] |}
  end.

(** [confirm()] of DeviceSetupDialog.vue: the name and the source device
    it emits. *)
Definition dialogConfirm (deviceName importFromDeviceId default : jsstring)
  : jsstring * option jsstring :=
  (if negb (truthy (trim deviceName)) then default else deviceName,
   if truthy importFromDeviceId then Some importFromDeviceId else None).

(** [handleDeviceSetup(deviceName, importFromDeviceId)], for a current
    device and a source whose ids are [plainKey]s: the assignment
    [config.value.devices[id] = updatedDevice] creates or replaces the
    entry. *)
Definition handleDeviceSetup (deviceName : jsstring)
    (importFromDeviceId : option jsstring) (save : Awaited (Result unit))
    (s : App) : App :=
  match app_config s, app_currentDevice s with
  | Some c, Some current =>
      let ds := match devices c with Some ds => ds | None => ∅ end in
      let updatedDevice := {| id := id current; device_name := deviceName |} in
      let ds' := <[id updatedDevice := updatedDevice]> ds in
      let source :=
        match importFromDeviceId with
        | Some i => if truthy i then Some i else None
        | None => None
        end in
      match source, games c with
      | Some i, Some gs =>
          {| app_config :=
               Some {| devices := Some ds';
                       games := Some (map (Settings.importGame i (id updatedDevice)) gs) |};
             app_currentDevice := app_currentDevice s;
             app_otherDevices := app_otherDevices s;
             showDeviceSetupDialog := showDeviceSetupDialog s;
             defaultDeviceName := defaultDeviceName s;
             app_log := app_log s
                        ++ [ShowSuccess (T "device_setup.import_success")]
                        ++ saveConfig_effects save |}
      | _, _ =>
          {| app_config := Some {| devices := Some ds'; games := games c |};
             app_currentDevice := app_currentDevice s;
             app_otherDevices := app_otherDevices s;
             showDeviceSetupDialog := showDeviceSetupDialog s;
             defaultDeviceName := defaultDeviceName s;
             app_log := app_log s ++ saveConfig_effects save |}
      end
  | _, _ => s
  end.

(** *** Vocabulary *)

(** [m'] is [m] without the entry of [deviceId]. *)
Definition forgets (deviceId : jsstring)
    (m m' : option (gmap jsstring jsstring)) : Prop :=
  entry m' deviceId = None ∧ ∀ k, k ≠ deviceId → entry m' k = entry m k.



(** *** Sample data *)



Definition desktop : Device :=
  {| id := Samples.devA; device_name := str "desktop" |}.

Definition registry : gmap jsstring Device :=
  <[Samples.devA := desktop]> (<[Samples.devB := Samples.laptop]> ∅).

(** A configuration in which both devices are registered. *)
Definition bothDevices (g : Game) : ConfigDoc :=
  {| devices := Some registry; games := Some [g] |}.

Definition adminOf (g : Game) : Admin :=
  {| config := Some (bothDevices g); currentDevice := Samples.laptop;
     otherDevices := []; log := [] |}.

(** The app on a device the configuration does not know yet. *)
Definition firstStart (g : Game) : App :=
  {| app_config := Some {| devices := Some (<[Samples.devA := desktop]> ∅);
                           games := Some [g] |};
     app_currentDevice := Some Samples.laptop; app_otherDevices := [];
     showDeviceSetupDialog := false; defaultDeviceName := [];
     app_log := [] |}.

End Devices.

(* ===================================================================== *)
(** * components/SaveLocationDrawer.vue *)
(* ===================================================================== *)

Module Drawer.

(** The refs of the drawer; [game] is [props.game], [tempGame] the deep
    copy the inputs edit. *)
Record Drawer := {
  game : option Game;
  currentDevice : option Device;
  availableDevices : list Device;
  selectedDeviceId : jsstring;
  tempGame : Game;
  hasUnsavedChanges : bool
}.

(** [getDevicesFromConfig()] *)
Definition getDevicesFromConfig (config : option Devices.ConfigDoc)
  : gmap jsstring Device :=
  match config with
  | Some {| Devices.devices := Some ds |} => ds
  | _ => ∅
  end.

(** [Object.keys(m).forEach(deviceId => deviceIds.add(deviceId))]; the keys
    are enumerated in the order of [map_to_list]. *)
Definition addKeys (deviceIds : list jsstring) (m : gmap jsstring jsstring)
  : list jsstring :=
  foldl (λ acc e, Management.setAdd (fst e) acc) deviceIds (map_to_list m).

Definition addUnitKeys (deviceIds : list jsstring) (unit : SaveUnit)
  : list jsstring :=
  match paths unit with
  | Some m => addKeys deviceIds m
  | None => deviceIds
  end.

(** The set [deviceIds] that [extractDeviceIdsFromSaveUnits] collects. *)
Definition deviceIds (current : option Device) (g : Game) : list jsstring :=
  let ids0 := match current with Some d => [id d] | None => [] end in
  let ids1 :=
    match save_paths g with
    | Some units => foldl addUnitKeys ids0 units
    | None => ids0
    end in
  match game_paths g with
  | Some m => addKeys ids1 m
  | None => ids1
  end.

(** The callback of [Array.from(deviceIds).map]. *)
Definition deviceOf (current : option Device)
    (deviceMap : gmap jsstring Device) (i : jsstring) : Device :=
  let other :=
    match deviceMap !! i with
    | Some d => d
    | None => {| id := i; device_name := substring0 8 i ++ str "..." |}
    end in
  match current with
  | Some d => if bool_decide (i = id d) then d else other
  | None => other
  end.

(** [extractDeviceIdsFromSaveUnits()] *)
Definition extractDeviceIdsFromSaveUnits (config : option Devices.ConfigDoc)
    (s : Drawer) : Drawer :=
  match game s with
  | None => s
  | Some g =>
      let available :=
        map (deviceOf (currentDevice s) (getDevicesFromConfig config))
          (deviceIds (currentDevice s) g) in
      {| game := game s; currentDevice := currentDevice s;
         availableDevices := available;
         selectedDeviceId :=
           match currentDevice s with
           | Some d => id d
           | None =>
               match available with
               | d :: _ => id d
               | [] => selectedDeviceId s
               end
           end;
         tempGame := tempGame s; hasUnsavedChanges := hasUnsavedChanges s |}
  end.

(** [initTempGame()]: [JSON.parse(JSON.stringify(props.game))] is a copy
    that shares nothing with [props.game]. *)
Definition initTempGame (s : Drawer) : Drawer :=
  match game s with
  | None => s
  | Some g =>
      {| game := game s; currentDevice := currentDevice s;
         availableDevices := availableDevices s;
         selectedDeviceId := selectedDeviceId s;
         tempGame := g; hasUnsavedChanges := false |}
  end.

Definition cancelChanges (s : Drawer) : Drawer := initTempGame s.

(** [x || ''] for the entry [x] read at a [plainKey]. *)
Definition orEmpty (x : option jsstring) : jsstring :=
  match x with
  | Some p => if truthy p then p else []
  | None => []
  end.


(** [getGameLaunchPath(deviceId)] *)
Definition getGameLaunchPath (s : Drawer) (deviceId : jsstring) : jsstring :=
  match game_paths (tempGame s) with
  | None => []
  | Some m => orEmpty (m !! deviceId)
  end.

Definition withTemp (g : Game) (s : Drawer) : Drawer :=
  {| game := game s; currentDevice := currentDevice s;
     availableDevices := availableDevices s;
     selectedDeviceId := selectedDeviceId s;
     tempGame := g; hasUnsavedChanges := true |}.

(** [unit.paths[deviceId] = f(unit.paths[deviceId])], after
    [if (!unit.paths) unit.paths = {}], for a [plainKey]. *)
Definition writePath (deviceId : jsstring)
    (f : option jsstring → jsstring) (m : option (gmap jsstring jsstring))
  : option (gmap jsstring jsstring) :=
  let mp := match m with Some mp => mp | None => ∅ end in
  Some (<[deviceId := f (mp !! deviceId)]> mp).

(** The two functions that write a save path; [None] is the [TypeError] of
    [unit.paths] when [save_paths[index]] is undefined, thrown before
    anything was written. *)
Definition writeUnit (index : nat) (deviceId : jsstring)
    (f : option jsstring → jsstring) (s : Drawer) : option Drawer :=
  match save_paths (tempGame s) with
  | None => Some s
  | Some units =>
      match units !! index with
      | None => None
      | Some unit =>
          let unit' :=
            {| unit_type := unit_type unit;
               paths := writePath deviceId f (paths unit);
               delete_before_apply := delete_before_apply unit |} in
          Some (withTemp
                  {| name := name (tempGame s);
                     save_paths := Some (<[index := unit']> units);
                     game_paths := game_paths (tempGame s) |} s)
      end
  end.

(** [updateDevicePath(index, deviceId, path)] *)
Definition updateDevicePath (index : nat) (deviceId path : jsstring)
    (s : Drawer) : option Drawer :=
  writeUnit index deviceId (λ _, path) s.

(** [insertPathVariable(variable, index, deviceId)] *)
Definition insertPathVariable (variable : jsstring) (index : nat)
    (deviceId : jsstring) (s : Drawer) : option Drawer :=
  writeUnit index deviceId (λ cur, orEmpty cur ++ variable) s.

Definition writeLaunch (deviceId : jsstring)
    (f : option jsstring → jsstring) (s : Drawer) : Drawer :=
  withTemp {| name := name (tempGame s);
              save_paths := save_paths (tempGame s);
              game_paths := writePath deviceId f (game_paths (tempGame s)) |}
    s.

(** [updateGameLaunchPath(deviceId, path)] *)
Definition updateGameLaunchPath (deviceId path : jsstring) (s : Drawer)
  : Drawer :=
  writeLaunch deviceId (λ _, path) s.

(** [insertGamePathVariable(variable, deviceId)] *)
Definition insertGamePathVariable (variable deviceId : jsstring) (s : Drawer)
  : Drawer :=
  writeLaunch deviceId (λ cur, orEmpty cur ++ variable) s.


(** *** The inputs of the drawer *)

Inductive Edit :=
| UpdateDevicePath (index : nat) (deviceId path : jsstring)
| InsertPathVariable (variable : jsstring) (index : nat) (deviceId : jsstring)
| UpdateGameLaunchPath (deviceId path : jsstring)
| InsertGamePathVariable (variable deviceId : jsstring)
| CancelChanges.

(** One handler; a handler that throws leaves the drawer as it was. *)
Definition step (s : Drawer) (e : Edit) : Drawer :=
  match e with
  | UpdateDevicePath i d p => default s (updateDevicePath i d p s)
  | InsertPathVariable v i d => default s (insertPathVariable v i d s)
  | UpdateGameLaunchPath d p => updateGameLaunchPath d p s
  | InsertGamePathVariable v d => insertGamePathVariable v d s
  | CancelChanges => cancelChanges s
  end.

Definition run (es : list Edit) (s : Drawer) : Drawer := foldl step s es.




(** *** Sample data *)

Definition opened (g : Game) : Drawer :=
  {| game := Some g; currentDevice := Some Samples.laptop;
     availableDevices := []; selectedDeviceId := [];
     tempGame := g; hasUnsavedChanges := false |}.

End Drawer.

(* ===================================================================== *)
(** * middleware/error.global.ts *)
(* ===================================================================== *)

Module Router.

Definition allowedPrefixes : list jsstring :=
  [str "/About"; str "/AddGame"; str "/Settings"; str "/SyncSettings";
   str "/Management"].

(** What the middleware returns: nothing, [navigateTo(path)], or the
    [TypeError] of [config.value.games.find] on a missing [games]. *)
Inductive Verdict := Continue | NavigateTo (path : jsstring) | TypeError.

(** The whitelist check, the second half of the middleware. *)
Definition whitelist (fullPath : jsstring) : Verdict :=
  let isRoot := bool_decide (fullPath = str "/") in
  let isAllowed :=
    isRoot
    || existsb (λ prefix, bool_decide (fullPath = prefix)
                          || startsWith fullPath prefix) allowedPrefixes in
  if negb isAllowed then NavigateTo (str "/") else Continue.

(** The middleware for a route [to] with [to.fullPath = fullPath] and
    [to.params.name = name] ([None] when the route has no such parameter). *)
Definition guard (games : option (list Game)) (fullPath : jsstring)
    (name : option jsstring) : Verdict :=
  match name with
  | Some n =>
      if startsWith fullPath (str "/Management") && truthy n
      then
        match games with
        | None => TypeError
        | Some gs =>
            match find (λ x, bool_decide (Bindings.name x = n)) gs with
            | Some _ => whitelist fullPath
            | None => NavigateTo (str "/")
            end
        end
      else whitelist fullPath
  | None => whitelist fullPath
  end.

End Router.

(* ===================================================================== *)
(** * Properties *)
(* ===================================================================== *)

(** ** JavaScript strings *)

Module JsFacts.

Lemma trimStart_nil_iff (s : jsstring) : trimStart s = [] ↔ blank s = true.
Proof.
  induction s as [|c r IH]; simpl; [done|].
  destruct (isWhiteSpace c); simpl; [exact IH|].
  split; discriminate.
Qed.

Lemma trimStart_blank (s : jsstring) : blank s = true → trimStart s = [].
Proof. apply trimStart_nil_iff. Qed.

Lemma blank_rev (s : jsstring) : blank (rev s) = blank s.
Proof.
  unfold blank. apply eq_true_iff_eq.
  rewrite !forallb_forall. split; intros H x Hx; apply H.
  - by apply in_rev in Hx.
  - by apply in_rev.
Qed.

Lemma trimStart_suffix (s : jsstring) : ∃ p, s = p ++ trimStart s ∧ blank p = true.
Proof.
  induction s as [|c r [p [Hp Hb]]]; simpl.
  - by exists [].
  - destruct (isWhiteSpace c) eqn:Hc.
    + exists (c :: p). simpl. rewrite Hc, Hb. split; [by f_equal|done].
    + by exists [].
Qed.

Lemma blank_app (a b : jsstring) : blank (a ++ b) = blank a && blank b.
Proof. apply forallb_app. Qed.

(** Trimming leaves nothing exactly when the string is blank. *)
Lemma trim_nil_iff (s : jsstring) : trim s = [] ↔ blank s = true.
Proof.
  unfold trim, trimEnd.
  destruct (trimStart_suffix s) as [p [Hs Hp]].
  assert (Hbs : blank s = blank (trimStart s)).
  { rewrite Hs at 1. by rewrite blank_app, Hp. }
  rewrite Hbs, <- (blank_rev (trimStart s)), <- trimStart_nil_iff.
  split; intros H.
  - apply (f_equal (@rev N)) in H. by rewrite rev_involutive in H.
  - by rewrite H.
Qed.

Lemma truthy_trim (s : jsstring) : truthy (trim s) = negb (blank s).
Proof.
  destruct (blank s) eqn:Hb.
  - apply trim_nil_iff in Hb. by rewrite Hb.
  - destruct (trim s) eqn:Ht; [|done].
    apply trim_nil_iff in Ht. congruence.
Qed.


Lemma isEmpty_trim (s : jsstring) : isEmpty (trim s) = blank s.
Proof.
  rewrite <- (negb_involutive (blank s)), <- truthy_trim.
  by destruct (trim s).
Qed.

Lemma blank_nil_str : blank (str "") = true.
Proof. reflexivity. Qed.

End JsFacts.

Import JsFacts.

(** ** Device-path reconciliation *)

Module ManagementFacts.

Import Management Spec.

(** *** The code's emptiness tests, in the words of the specification *)





(** *** copyEntry *)




(** *** copyUnits and copyGame *)












(** *** copyPathsFromDevice *)


(** *** The candidate set *)

Lemma setAdd_elem (x y : jsstring) (s : list jsstring) :
  y ∈ setAdd x s ↔ y = x ∨ y ∈ s.
Proof.
  unfold setAdd. case_bool_decide as Hx.
  - split; [by right|]. by intros [->|H].
  - rewrite elem_of_app, list_elem_of_singleton. tauto.
Qed.


(** The test of the callback: another device, with a path that is not
    blank. *)
Lemma collect_test (deviceId id p : jsstring) :
  negb (bool_decide (id = deviceId)) && truthy p && negb (isEmpty (trim p))
  = true ↔ id ≠ deviceId ∧ blank p = false.
Proof.
  rewrite isEmpty_trim, !andb_true_iff, !negb_true_iff, bool_decide_eq_false.
  split; [tauto|]. intros [Hne Hb]. repeat split; try done.
  destruct p; [discriminate|done].
Qed.

Lemma collectEntry_elem (deviceId : jsstring) (acc : list jsstring)
    (e : jsstring * jsstring) (x : jsstring) :
  x ∈ collectEntry deviceId acc e
  ↔ x ∈ acc ∨ (x = e.1 ∧ x ≠ deviceId ∧ blank e.2 = false).
Proof.
  destruct e as [k p]. unfold collectEntry.
  destruct (negb (bool_decide (k = deviceId)) && truthy p
            && negb (isEmpty (trim p))) eqn:Ht.
  - apply collect_test in Ht as [Hne Hb]. rewrite setAdd_elem. simpl.
    split; [intros [->|H]; [right|left]; done|].
    intros [H|[-> _]]; [by right|by left].
  - split; [by left|]. intros [H|[-> [Hne Hb]]]; [done|].
    simpl in *. assert (Hc := proj2 (collect_test deviceId k p) (conj Hne Hb)).
    congruence.
Qed.


Lemma collectEntries_elem (deviceId : jsstring)
    (es : list (jsstring * jsstring)) (acc : list jsstring) (x : jsstring) :
  x ∈ foldl (collectEntry deviceId) acc es
  ↔ x ∈ acc ∨ (x ≠ deviceId ∧ ∃ p, (x, p) ∈ es ∧ blank p = false).
Proof.
  revert acc. induction es as [|e es IH]; intros acc; simpl.
  - split; [by left|]. intros [H|[_ [p [H _]]]]; [done|].
    by apply not_elem_of_nil in H.
  - rewrite IH, collectEntry_elem. split.
    + intros [[H|[-> [Hne Hb]]]|[Hne [p [Hp Hb]]]].
      * by left.
      * right. split; [done|]. exists e.2. split; [|done].
        destruct e. apply list_elem_of_here.
      * right. split; [done|]. exists p. split; [|done].
        by apply list_elem_of_further.
    + intros [H|[Hne [p [Hp Hb]]]]; [by left; left|].
      apply elem_of_cons in Hp as [<-|Hp].
      * left. right. by repeat split.
      * right. split; [done|]. by exists p.
Qed.


Lemma collectUnit_elem (deviceId : jsstring) (acc : list jsstring)
    (unit : SaveUnit) (x : jsstring) :
  x ∈ collectUnit deviceId acc unit
  ↔ x ∈ acc ∨ (x ≠ deviceId ∧ hasPath (paths unit) x).
Proof.
  unfold collectUnit, hasPath. destruct (paths unit) as [m|]; simpl.
  - rewrite collectEntries_elem.
    split; (intros [H|[Hne [p [Hp Hb]]]]; [by left|right]);
      (split; [done|]); exists p; (split; [|done]).
    + by apply elem_of_map_to_list in Hp.
    + by apply elem_of_map_to_list.
  - split; [by left|]. by intros [H|[_ [p [? _]]]].
Qed.

Lemma collectUnits_elem (deviceId : jsstring) (units : list SaveUnit)
    (acc : list jsstring) (x : jsstring) :
  x ∈ foldl (collectUnit deviceId) acc units
  ↔ x ∈ acc ∨ (x ≠ deviceId ∧ ∃ unit, unit ∈ units ∧ hasPath (paths unit) x).
Proof.
  revert acc. induction units as [|u us IH]; intros acc; simpl.
  - split; [by left|]. intros [H|[_ [u [H _]]]]; [done|].
    by apply not_elem_of_nil in H.
  - rewrite IH, collectUnit_elem. split.
    + intros [[H|[Hne Hp]]|[Hne [v [Hv Hp]]]].
      * by left.
      * right. split; [done|]. exists u. split; [apply list_elem_of_here|done].
      * right. split; [done|]. exists v. split; [|done].
        by apply list_elem_of_further.
    + intros [H|[Hne [v [Hv Hp]]]]; [by left; left|].
      apply elem_of_cons in Hv as [->|Hv].
      * left. by right.
      * right. split; [done|]. by exists v.
Qed.



(** *** The claims on reconciliation *)

Example gap_is_filled :
  ∃ g', heap (copyPathsFromDevice Samples.devA (Resolves (Ok ()))
                (Samples.pageOf Samples.gapGame)) !! 0%nat = Some g'
        ∧ (∃ u, save_paths g' = Some [u]
                ∧ entry (paths u) Samples.devB = Some (str "/a/save")
                ∧ entry (paths u) Samples.devA = Some (str "/a/save"))
        ∧ entry (game_paths g') Samples.devB = Some (str "/a/celeste.exe").
Proof. vm_compute. eexists. split; [reflexivity|]. split; [|reflexivity].
  eexists. split; [reflexivity|]. split; reflexivity. Qed.

Example filled_is_kept :
  copyPathsFromDevice Samples.devA (Resolves (Ok ()))
    (Samples.pageOf {| name := name Samples.filledGame;
                       save_paths := save_paths Samples.filledGame;
                       game_paths := None |})
  = Samples.pageOf {| name := name Samples.filledGame;
                      save_paths := save_paths Samples.filledGame;
                      game_paths := None |}.
Proof. vm_compute. reflexivity. Qed.

(** An entry of the current device that holds white space only counts as
    empty, as the code tests it ([!x || !x.trim()]), and is filled. *)
Example blank_target_is_filled :
  fst (copyEntry Samples.devA Samples.devB
         (Some (<[Samples.devA := str "/a/save"]>
                  (<[Samples.devB := str "  "]> ∅))))
  = Some (<[Samples.devB := str "/a/save"]>
            (<[Samples.devA := str "/a/save"]>
               (<[Samples.devB := str "  "]> ∅))).
Proof. vm_compute. reflexivity. Qed.




Lemma devicesWithPaths_elem (deviceId : jsstring)
    (units : list SaveUnit) (x : jsstring) :
  x ∈ devicesWithPaths deviceId units
  ↔ x ≠ deviceId ∧ ∃ unit, unit ∈ units ∧ hasPath (paths unit) x.
Proof.
  unfold devicesWithPaths. rewrite collectUnits_elem.
  split; [|by right]. intros [H|H]; [|done]. by apply not_elem_of_nil in H.
Qed.




(** *** No-op and persist-only-if-changed *)


Lemma saveConfigCalls_app (l1 l2 : list Effect) :
  saveConfigCalls (l1 ++ l2) = (saveConfigCalls l1 + saveConfigCalls l2)%nat.
Proof. unfold saveConfigCalls. by rewrite List.filter_app, length_app. Qed.

Lemma saveConfigCalls_saveConfig (save : Awaited (Result unit)) :
  saveConfigCalls (saveConfig_effects save) = 1%nat.
Proof. by destruct save as [[[]|e]|]. Qed.







(** With two candidates and a user who confirms and then dismisses the
    prompt, the prompt lists exactly the collected set. *)
Example prompt_lists_candidates :
  log (checkCurrentDeviceSavePaths
         {| device := Resolves (Ok Samples.laptop);
            confirm := Resolves ActConfirm; prompt := Rejects;
            save := Resolves (Ok ()) |}
         (Samples.pageOf
            {| name := str "Celeste";
               save_paths :=
                 Some [Samples.folderUnit (<[Samples.devA := str "/a/save"]> ∅);
                       Samples.folderUnit (<[str "device-c" := str "/c/save"]> ∅)];
               game_paths := None |}))
  = [GetCurrentDeviceInfo; Confirm; Prompt [Samples.devA; str "device-c"]].
Proof. vm_compute. reflexivity. Qed.

End ManagementFacts.

(** ** The loading stack *)

Module GlobalLoadingFacts.

Import GlobalLoading.

Lemma stopLoading_push (st : list Message) (x : Message) :
  stopLoading (st ++ [x]) = st.
Proof.
  unfold stopLoading. rewrite length_app. simpl.
  replace (0 <? length st + 1)%nat with true
    by (symmetry; apply Nat.ltb_lt; lia).
  apply removelast_last.
Qed.

Lemma stopLoading_length (st : list Message) :
  length (stopLoading st) = (length st - 1)%nat.
Proof.
  destruct st as [|x st] using rev_ind.
  - reflexivity.
  - rewrite stopLoading_push, length_app. simpl. lia.
Qed.

Lemma balanced_initial : balanced initial.
Proof. split; [set_solver|]. vm_compute. reflexivity. Qed.

Lemma step_balanced (w w' : World) (e : Event) :
  balanced w → step w e = Some w' → balanced w'.
Proof.
  intros [Hsub Hlen] Hstep. destruct e as [i m inv|i o]; simpl in Hstep.
  - case_bool_decide as Hi; [done|]. injection Hstep as <-.
    unfold balanced, pending in *. cbn [messageStack started settled].
    destruct inv.
    + (* the operation throws at once: pushed and popped *)
      split; [set_solver|].
      unfold withLoading_enter, startLoading. rewrite stopLoading_push.
      rewrite Hlen. f_equal. set_solver.
    + (* the operation is pending: one message more *)
      split; [set_solver|].
      unfold withLoading_enter, startLoading. rewrite length_app, Hlen. cbn [length].
      replace (({[i]} ∪ started w) ∖ settled w)
        with ({[i]} ∪ started w ∖ settled w) by set_solver.
      rewrite (size_union {[i]} (started w ∖ settled w)) by set_solver.
      rewrite size_singleton. lia.
  - destruct (bool_decide (i ∈ started w)) eqn:Hs; [|done].
    destruct (bool_decide (i ∈ settled w)) eqn:Hd; [done|].
    apply bool_decide_eq_true in Hs. apply bool_decide_eq_false in Hd.
    injection Hstep as <-. unfold balanced, pending in *. cbn [messageStack started settled].
    split; [set_solver|].
    rewrite stopLoading_length, Hlen.
    assert (Hsz : size (started w ∖ settled w)
                  = Datatypes.S (size (started w ∖ ({[i]} ∪ settled w)))).
    { replace (started w ∖ settled w)
        with ({[i]} ∪ started w ∖ ({[i]} ∪ settled w)).
      - rewrite (size_union {[i]} (started w ∖ ({[i]} ∪ settled w)))
          by set_solver.
        by rewrite size_singleton.
      - apply set_eq. intros x. destruct (decide (x = i)); set_solver. }
    lia.
Qed.

Lemma run_balanced (es : list Event) (w w' : World) :
  balanced w → run w es = Some w' → balanced w'.
Proof.
  revert w. induction es as [|e es IH]; intros w Hw Hrun; simpl in Hrun.
  - by injection Hrun as <-.
  - destruct (step w e) as [w1|] eqn:He; [|done].
    apply (IH w1); [|done]. by apply (step_balanced w w1 e).
Qed.

(** The sets of the world are those of the trace. *)
Lemma run_history (es : list Event) (w w' : World) :
  run w es = Some w' →
  started w' = started w ∪ startedIn es
  ∧ settled w' = settled w ∪ settledIn es.
Proof.
  revert w. induction es as [|e es IH]; intros w Hrun; simpl in Hrun.
  - injection Hrun as <-. simpl. split; set_solver.
  - destruct (step w e) as [w1|] eqn:He; [|done].
    destruct (IH w1 Hrun) as [Hs Hd]. rewrite Hs, Hd.
    destruct e as [i m inv|i o]; simpl in He.
    + case_bool_decide; [done|]. injection He as <-. simpl.
      destruct inv; split; set_solver.
    + destruct (_ && _); [|done]. injection He as <-. simpl.
      split; set_solver.
Qed.

Lemma isLoading_pending (w : World) :
  balanced w → (isLoading (messageStack w) = true ↔ ∃ i, i ∈ pending w).
Proof.
  intros [_ Hlen]. unfold isLoading. rewrite Hlen, Nat.ltb_lt. split.
  - intros Hpos. apply size_pos_elem_of. lia.
  - intros [i Hi].
    assert (size (pending w) ≠ 0)%nat; [|lia].
    apply size_non_empty_iff. set_solver.
Qed.

(** C3. [withLoading] pushes its message before the operation is invoked
    and pops once on each exit: at once when the operation throws, and when
    the awaited operation settles, fulfilled or rejected alike. Hence, after
    any sequence of overlapping calls and settlements, [isLoading] is true
    exactly when some call has started and not settled, and it is false once
    every started call has settled. *)
Theorem withLoading_balanced :
  (∀ message st,
     withLoading_enter message Returns st = startLoading message st
     ∧ length (withLoading_enter message Returns st) = Datatypes.S (length st)
     ∧ withLoading_enter message Throws st = st)
  ∧ (∀ o st x, withLoading_resume o (st ++ [x]) = (st, o))
  ∧ (∀ (es : list Event) (w : World),
       run initial es = Some w →
       (isLoading (messageStack w) = true
        ↔ ∃ i, i ∈ startedIn es ∧ i ∉ settledIn es)
       ∧ (startedIn es ⊆ settledIn es → isLoading (messageStack w) = false)
       ∧ length (messageStack w) = size (startedIn es ∖ settledIn es)).
Proof.
  split; [|split].
  - intros message st. unfold withLoading_enter. repeat split.
    + unfold startLoading. rewrite length_app. simpl. lia.
    + unfold startLoading. apply stopLoading_push.
  - intros o st x. unfold withLoading_resume. by rewrite stopLoading_push.
  - intros es w Hrun.
    pose proof (run_balanced es initial w balanced_initial Hrun) as Hb.
    destruct (run_history es initial w Hrun) as [Hs Hd]. simpl in Hs, Hd.
    assert (Hp : pending w = startedIn es ∖ settledIn es).
    { unfold pending. rewrite Hs, Hd. set_solver. }
    pose proof (isLoading_pending w Hb) as Hiff. rewrite Hp in Hiff.
    split; [|split].
    + rewrite Hiff. split; intros [i Hi]; exists i; set_solver.
    + intros Hall. destruct (isLoading (messageStack w)) eqn:Hl; [|done].
      destruct (proj1 Hiff eq_refl) as [i Hi]. set_solver.
    + destruct Hb as [_ Hlen]. by rewrite Hlen, Hp.
Qed.

Lemma withLoading_balanced_witness :
  (isLoading [] = true
   ↔ ∃ i, i ∈ startedIn overlapping ∧ i ∉ settledIn overlapping)
  ∧ (startedIn overlapping ⊆ settledIn overlapping → isLoading [] = false)
  ∧ length (@nil Message) = size (startedIn overlapping ∖ settledIn overlapping).
Proof.
  apply (proj2 (proj2 withLoading_balanced) overlapping
           {| messageStack := []; started := {[1%nat; 0%nat]};
              settled := {[1%nat; 0%nat]} |}).
  vm_compute. reflexivity.
Defined.

(** One of two overlapping operations fails: the spinner stays until the
    other one settles. *)
Example failure_keeps_loading :
  (isLoading ∘ messageStack) <$> run initial (take 3 overlapping) = Some true
  ∧ (isLoading ∘ messageStack) <$> run initial overlapping = Some false.
Proof. split; vm_compute; reflexivity. Qed.

End GlobalLoadingFacts.

(** ** The notification queue *)

Module NotificationFacts.

Import Notification.

Local Open Scope Z_scope.

(** *** Order *)

Lemma loop_line (s : Notifier) : line (loop s) = line s.
Proof.
  destruct s as [q a p r t c]. unfold loop, line, displayed. simpl.
  destruct q as [|n rest]; simpl; [done|].
  by rewrite map_app, <- app_assoc.
Qed.

Lemma processQueue_line (s : Notifier) : line (processQueue s) = line s.
Proof.
  unfold processQueue. destruct (_ || _); [done|]. by rewrite loop_line.
Qed.

Lemma step_line (s s' : Notifier) (e : Event) :
  step s e = Some s' → line s' = line s ++ map display (calls [e]).
Proof.
  destruct e as [ty o i| |dt]; simpl; intros H.
  - injection H as <-. unfold addToQueue. rewrite processQueue_line.
    unfold line, displayed. simpl. by rewrite map_app, app_assoc.
  - destruct (timers s) as [|due others] eqn:Ht; [done|].
    injection H as <-. rewrite loop_line. unfold line, displayed. simpl.
    by rewrite app_nil_r.
  - destruct (0 <=? dt); [|done]. injection H as <-.
    unfold line, displayed. simpl. by rewrite app_nil_r.
Qed.

Lemma calls_app (es es' : list Event) : calls (es ++ es') = calls es ++ calls es'.
Proof.
  induction es as [|[ty o i| |dt] es IH]; simpl; [done| |done|done].
  by rewrite IH.
Qed.

Lemma run_line (es : list Event) (s s' : Notifier) :
  run s es = Some s' → line s' = line s ++ map display (calls es).
Proof.
  revert s. induction es as [|e es IH]; intros s H; simpl in H.
  - injection H as <-. simpl. by rewrite app_nil_r.
  - destruct (step s e) as [s1|] eqn:He; [|done].
    rewrite (IH s1 H), (step_line s s1 e He).
    change (e :: es) with ([e] ++ es).
    by rewrite calls_app, map_app, app_assoc.
Qed.

(** *** One worker, paced renders *)

Lemma paced_snoc (ts : list Z) (x : Z) :
  paced ts → (∀ t, last ts = Some t → t + 100 <= x) → paced (ts ++ [x]).
Proof.
  induction ts as [|t1 ts IH]; intros Hp Hl; simpl; [done|].
  destruct Hp as [H1 Hp]. split.
  - destruct ts as [|t2 ts]; simpl; [by apply Hl|done].
  - apply IH; [done|]. intros t Ht. apply Hl.
    destruct ts; [done|]. by rewrite last_cons, Ht.
Qed.

Lemma lastRender_snoc (r : list (Z * NotificationParams)) (c : Z)
    (h : NotificationParams) :
  last (map fst (r ++ [(c, h)])) = Some c.
Proof. rewrite map_app. simpl. apply last_snoc. Qed.

(** The loop entered with no other worker alive, the flag up, and the
    latest render at least 100ms back. *)
Lemma loop_orderly (s : Notifier) :
  timers s = [] → isProcessing s = true →
  (∀ t, lastRender s = Some t → t + 100 <= clock s) →
  paced (map fst (rendered s)) →
  map snd (rendered s) = map snd (displayed s) →
  orderly (loop s).
Proof.
  destruct s as [q a p r t c]. unfold orderly, single_worker, lastRender,
    displayed, loop. simpl. intros -> -> Hl Hp Hr.
  destruct q as [|n rest]; simpl.
  - repeat split; done.
  - rewrite lastRender_snoc. repeat split.
    + f_equal. lia.
    + lia.
    + rewrite map_app. by apply paced_snoc.
    + rewrite !map_app, !map_map. simpl. rewrite !map_map in Hr. by rewrite Hr.
Qed.

Lemma step_orderly (s s' : Notifier) (e : Event) :
  orderly s → step s e = Some s' → orderly s'.
Proof.
  intros (Hw & Hp & Hr) H. destruct e as [ty o i| |dt]; simpl in H.
  - injection H as <-. unfold addToQueue, processQueue. cbn [isProcessing messageQueue].
    destruct (isProcessing s) eqn:Hb; simpl.
    + (* a worker is alive: the call only queues *)
      unfold orderly, single_worker, lastRender, displayed in *. simpl.
      split; [|done].
      destruct (timers s) as [|due [|]]; [|tauto|done].
      destruct Hw as [Hw _]. congruence.
    + rewrite length_app. simpl.
      replace (length (messageQueue s) + 1 =? 0)%nat with false
        by (symmetry; apply Nat.eqb_neq; lia).
      unfold single_worker in Hw.
      destruct (timers s) as [|due [|]] eqn:Ht; [|destruct Hw; congruence|done].
      destruct Hw as (_ & Hq & Hl). by apply loop_orderly.
  - destruct (timers s) as [|due others] eqn:Ht; [done|].
    injection H as <-. unfold single_worker in Hw. rewrite Ht in Hw.
    destruct others; [|done]. destruct Hw as (Hb & Hl & Hc).
    apply loop_orderly; simpl; try done.
    unfold lastRender in *. simpl. intros t Ht'. rewrite Hl in Ht'.
    injection Ht' as <-. lia.
  - destruct (0 <=? dt) eqn:Hdt; [|done]. injection H as <-.
    apply Z.leb_le in Hdt.
    unfold orderly, single_worker, lastRender, displayed in *. simpl.
    split; [|done].
    destruct (timers s) as [|due [|]]; [| |done].
    + destruct Hw as (Hb & Hq & Hl). repeat split; try done.
      intros t Ht. specialize (Hl t Ht). lia.
    + destruct Hw as (Hb & Hl & Hc). repeat split; try done. lia.
Qed.

Lemma run_orderly (es : list Event) (s s' : Notifier) :
  orderly s → run s es = Some s' → orderly s'.
Proof.
  revert s. induction es as [|e es IH]; intros s Hs H; simpl in H.
  - by injection H as <-.
  - destruct (step s e) as [s1|] eqn:He; [|done].
    apply (IH s1); [|done]. by apply (step_orderly s s1 e).
Qed.

Lemma idle_orderly (now : Z) : orderly (idle now).
Proof. repeat split; done. Qed.

(** *** A synchronous burst *)

(** While a worker is alive, [show*] calls only queue. *)
Lemma burst_busy (ns : list QueuedNotification) (es : list Event)
    (q : list QueuedNotification) (a : list ActiveNotification)
    (r : list (Z * NotificationParams)) (t : list Z) (c : Z) :
  run {| messageQueue := q; activeNotifications := a; isProcessing := true;
         rendered := r; timers := t; clock := c |} (burst ns ++ es)
  = run {| messageQueue := q ++ ns; activeNotifications := a;
           isProcessing := true; rendered := r; timers := t; clock := c |} es.
Proof.
  revert q. induction ns as [|n ns IH]; intros q.
  - simpl. by rewrite app_nil_r.
  - cbn [burst map app run step]. unfold addToQueue, processQueue.
    cbn [isProcessing orb messageQueue activeNotifications rendered timers clock].
    rewrite (IH (q ++ [_])). rewrite <- app_assoc. by destruct n.
Qed.

(** A worker suspended at time [c] shows what is queued, one notification
    every 100ms, and leaves. *)
Lemma drain (q : list QueuedNotification) (a : list ActiveNotification)
    (r : list (Z * NotificationParams)) (c : Z) :
  run {| messageQueue := q; activeNotifications := a; isProcessing := true;
         rendered := r; timers := [c + 100]; clock := c |}
      (repeat Timer (Datatypes.S (length q)))
  = Some {| messageQueue := []; activeNotifications := a ++ activeOf q;
            isProcessing := false; rendered := r ++ timesFrom (c + 100) q;
            timers := []; clock := c + 100 * (Z.of_nat (length q) + 1) |}.
Proof.
  revert a r c. induction q as [|n q IH]; intros a r c.
  - cbn [length repeat run step timers messageQueue activeNotifications
         isProcessing rendered clock].
    rewrite Z.max_r by lia.
    unfold loop. cbn [messageQueue activeNotifications rendered timers clock].
    cbn [activeOf timesFrom map]. rewrite !app_nil_r. do 2 f_equal.
  - cbn [length]. change (repeat Timer (Datatypes.S (Datatypes.S (length q))))
      with (Timer :: repeat Timer (Datatypes.S (length q))).
    cbn [run step timers messageQueue activeNotifications isProcessing
         rendered clock].
    rewrite Z.max_r by lia. unfold loop, show.
    cbn [messageQueue activeNotifications isProcessing rendered timers clock app].
    rewrite IH. cbn [activeOf timesFrom map]. rewrite <- !app_assoc.
    cbn [app]. unfold paramsOf. do 2 f_equal. rewrite Nat2Z.inj_succ. lia.
Qed.

Lemma burst_renders (now : Z) (ns : list QueuedNotification) :
  run (idle now) (burst ns ++ repeat Timer (length ns))
  = Some {| messageQueue := []; activeNotifications := activeOf ns;
            isProcessing := false; rendered := timesFrom now ns;
            timers := []; clock := now + 100 * Z.of_nat (length ns) |}.
Proof.
  destruct ns as [|n ns].
  - simpl. unfold idle. do 2 f_equal. lia.
  - cbn [burst map app run step]. unfold addToQueue, processQueue, idle.
    cbn [isProcessing orb messageQueue activeNotifications rendered timers
         clock app length Nat.eqb].
    unfold loop, show.
    cbn [messageQueue activeNotifications isProcessing rendered timers clock
         app type options qid].
    change (map (λ n0, Show (type n0) (options n0) (qid n0)) ns) with (burst ns).
    rewrite burst_busy. cbn [app length]. rewrite drain.
    cbn [activeOf timesFrom map app]. unfold paramsOf.
    do 2 f_equal. rewrite Nat2Z.inj_succ. lia.
Qed.

(** *** The claims on notifications *)

(** C6. The notifications shown and then the ones still queued are, in this
    order, the [show*] calls made, whatever their types; exactly the shown
    ones were rendered, with at least 100ms between consecutive renders; at
    most one worker exists, and [processQueue] starts none while the
    [isProcessing] flag is up. A burst of calls issued synchronously at time
    [now] is rendered in call order at [now], [now + 100], [now + 200], ...,
    after which the worker is gone. *)
Theorem notifications_render_in_call_order :
  (∀ (now : Z) (es : list Event) (s : Notifier),
     run (idle now) es = Some s →
     displayed s ++ map display (messageQueue s) = map display (calls es)
     ∧ map snd (rendered s) = map snd (displayed s)
     ∧ paced (map fst (rendered s))
     ∧ length (timers s) = (if isProcessing s then 1 else 0)%nat)
  ∧ (∀ s : Notifier, isProcessing s = true → processQueue s = s)
  ∧ (∀ (now : Z) (ns : list QueuedNotification),
       run (idle now) (burst ns ++ repeat Timer (length ns))
       = Some {| messageQueue := []; activeNotifications := activeOf ns;
                 isProcessing := false; rendered := timesFrom now ns;
                 timers := []; clock := now + 100 * Z.of_nat (length ns) |}).
Proof.
  split; [|split].
  - intros now es s Hrun.
    pose proof (run_line es (idle now) s Hrun) as Hline.
    destruct (run_orderly es (idle now) s (idle_orderly now) Hrun)
      as (Hw & Hp & Hr).
    repeat split; try done.
    unfold single_worker in Hw.
    destruct (timers s) as [|due [|]]; [| |done].
    + destruct Hw as [-> _]. done.
    + destruct Hw as [-> _]. done.
  - intros s Hb. unfold processQueue. by rewrite Hb.
  - apply burst_renders.
Qed.

Lemma notifications_render_in_call_order_witness :
  displayed mixedEnd ++ map display (messageQueue mixedEnd)
  = map display (calls mixedTrace)
  ∧ map snd (rendered mixedEnd) = map snd (displayed mixedEnd)
  ∧ paced (map fst (rendered mixedEnd))
  ∧ length (timers mixedEnd) = (if isProcessing mixedEnd then 1 else 0)%nat.
Proof.
  apply (proj1 notifications_render_in_call_order 0 mixedTrace mixedEnd).
  vm_compute. reflexivity.
Defined.

Example mixed_times :
  map fst (rendered mixedEnd) = [0; 100; 230]
  ∧ map (p_type ∘ snd) (rendered mixedEnd) = [error; success; info]
  ∧ map (p_duration ∘ snd) (rendered mixedEnd) = [3000; 0; 500].
Proof. vm_compute. repeat split. Qed.

(** Every rendered notification is one that was enqueued, with the
    parameters [show] computes from its options. *)
Lemma rendered_was_enqueued (now : Z) (es : list Event) (s : Notifier)
    (t : Z) (p : NotificationParams) :
  run (idle now) es = Some s → (t, p) ∈ rendered s →
  ∃ n, n ∈ calls es ∧ p = params (type n) (options n).
Proof.
  intros Hrun Hin.
  pose proof (run_line es (idle now) s Hrun) as Hline.
  destruct (run_orderly es (idle now) s (idle_orderly now) Hrun)
    as (_ & _ & Hr).
  assert (Hp : p ∈ map snd (displayed s)).
  { rewrite <- Hr. apply list_elem_of_In, in_map_iff. exists (t, p).
    split; [done|]. by apply list_elem_of_In. }
  apply list_elem_of_In, in_map_iff in Hp as [[i p'] [Heq Hd]].
  simpl in Heq. subst p'.
  assert (Hl : In (i, p) (line s)).
  { unfold line. apply in_or_app. by left. }
  rewrite Hline in Hl. simpl in Hl. apply in_map_iff in Hl as [n [Hn Hc]].
  exists n. split; [by apply list_elem_of_In|].
  unfold display, paramsOf in Hn. congruence.
Qed.

(** C9. The duration a notification is rendered with is the duration its
    options carry; without one it is 0 when [persistent] is set, and else
    the default of its type, 3000 for every type. The title is the one the
    options carry, else the default title of the type. Every rendered
    notification gets its parameters this way. *)
Theorem rendered_duration_and_title :
  (∀ ty, defaultDurations ty = 3000)
  ∧ (∀ ty o,
       (∀ d, duration o = Some d → p_duration (params ty o) = d)
       ∧ (duration o = None → persistent o = Some true →
            p_duration (params ty o) = 0)
       ∧ (duration o = None → persistent o ≠ Some true →
            p_duration (params ty o) = 3000)
       ∧ (∀ t, title o = Some t → p_title (params ty o) = Raw t)
       ∧ (title o = None → p_title (params ty o) = defaultTitles ty)
       ∧ p_message (params ty o) = message o
       ∧ p_type (params ty o) = ty)
  ∧ (∀ (now : Z) (es : list Event) (s : Notifier) t p,
       run (idle now) es = Some s → (t, p) ∈ rendered s →
       ∃ n, n ∈ calls es ∧ p = params (type n) (options n)).
Proof.
  split; [by intros []|]. split; [|apply rendered_was_enqueued].
  intros ty o. unfold params. simpl. repeat split.
  - by intros d ->.
  - by intros -> ->.
  - intros -> Hp. destruct (persistent o) as [[|]|]; [done| |]; by destruct ty.
  - by intros t ->.
  - by intros ->.
Qed.

Lemma rendered_duration_and_title_witness :
  p_duration (params success
                {| title := None; duration := None; message := str "saved";
                   persistent := Some true |}) = 0
  ∧ p_duration (params error
                  {| title := None; duration := None;
                     message := str "load failed"; persistent := None |}) = 3000
  ∧ p_duration (params info
                  {| title := Some (str "Note"); duration := Some 500;
                     message := str "synced"; persistent := Some true |}) = 500
  ∧ p_title (params info
               {| title := Some (str "Note"); duration := Some 500;
                  message := str "synced"; persistent := Some true |})
    = Raw (str "Note")
  ∧ p_title (params success
               {| title := None; duration := None; message := str "saved";
                  persistent := Some true |}) = T "misc.success"
  ∧ ∃ n, n ∈ calls mixedTrace
         ∧ params success
             {| title := None; duration := None; message := str "saved";
                persistent := Some true |} = params (type n) (options n).
Proof.
  pose proof (proj1 (proj2 rendered_duration_and_title)) as H.
  split; [|split; [|split; [|split; [|split]]]].
  - by apply (H success).
  - apply (H error); [done|]. simpl. congruence.
  - by apply (H info).
  - by apply (H info).
  - by apply (H success).
  - apply (proj2 (proj2 rendered_duration_and_title) 0 mixedTrace mixedEnd 100).
    + vm_compute. reflexivity.
    + vm_compute. apply list_elem_of_further, list_elem_of_here.
Defined.

End NotificationFacts.

(** ** The config store *)

Module ConfigStoreFacts.

Import ConfigStore.

Section Facts.

Context {Config : Type} (DEFAULT_CONFIG : Config).



Lemma refreshConfig_failed (f : Failure) (s : Store Config) :
  refreshConfig (failed f) s
  = {| defaultConfig := defaultConfig s; config := TheDefault;
       isLoading := false;
       log := log s ++ [GetLocalConfig; LogError;
                        ShowError (T "error.config_load_failed")] |}.
Proof.
  destruct f; unfold refreshConfig; simpl; by rewrite <- app_assoc.
Qed.


(** The fallback is the default object itself, not a copy: an edit made in
    place while [config.value] is that object is still there after the next
    failing refresh. *)
Remark edits_of_the_default_stay (g : Config → Config) (f f' : Failure)
    (s : Store Config) :
  document (refreshConfig (failed f')
              (edit g (refreshConfig (failed f) s)))
  = g (defaultConfig s).
Proof. by rewrite !refreshConfig_failed. Qed.

End Facts.


End ConfigStoreFacts.

(** ** The settings page *)

Module SettingsFacts.

Import Settings Spec.

(** *** Sound preferences *)

(** C4 (as the code has it). On a [quick_action] value, a missing
    [enable_sound] or [enable_notification] becomes [true] and a missing
    [sounds] becomes [{success: {kind: "default"}, failure: {kind:
    "default"}}], so that both slots are defined; flags that are present and
    a [sounds] object that is present are kept as they are. *)
Theorem ensureQuickActionDefaults_fills_missing (settings : QuickActionsSettings) :
  ∃ settings',
    ensureQuickActionDefaults (Some settings) = Some settings'
    ∧ (enable_sound settings = None → enable_sound settings' = Some true)
    ∧ (enable_notification settings = None →
         enable_notification settings' = Some true)
    ∧ (∀ b, enable_sound settings = Some b → enable_sound settings' = Some b)
    ∧ (∀ b, enable_notification settings = Some b →
            enable_notification settings' = Some b)
    ∧ (sounds settings = None →
         successSlot (Some settings') = Some SoundDefault
         ∧ failureSlot (Some settings') = Some SoundDefault)
    ∧ (∀ slots, sounds settings = Some slots → sounds settings' = Some slots).
Proof.
  eexists. split; [reflexivity|].
  destruct settings as [[b|] [b'|] [slots|]]; simpl;
    repeat split; intros; congruence.
Qed.

Lemma ensureQuickActionDefaults_fills_missing_witness :
  ∃ settings',
    ensureQuickActionDefaults
      (Some {| enable_sound := None; enable_notification := Some false;
               sounds := None |}) = Some settings'
    ∧ enable_sound settings' = Some true
    ∧ enable_notification settings' = Some false
    ∧ successSlot (Some settings') = Some SoundDefault
    ∧ failureSlot (Some settings') = Some SoundDefault.
Proof.
  destruct (ensureQuickActionDefaults_fills_missing
              {| enable_sound := None; enable_notification := Some false;
                 sounds := None |})
    as (settings' & He & Hs & _ & _ & Hn & Hd & _).
  exists settings'. split; [exact He|].
  split; [by apply Hs|]. split; [by apply Hn|]. by apply Hd.
Defined.

(** C4, the claim as stated fails: with [sounds] the empty object both
    slots are still undefined after normalization. *)
Lemma empty_sounds_stay_empty :
  successSlot (ensureQuickActionDefaults (Some Samples.emptySounds)) = None
  ∧ failureSlot (ensureQuickActionDefaults (Some Samples.emptySounds)) = None.
Proof. split; reflexivity. Qed.

(** The consumers read a missing slot as the default source. *)
Remark missing_slot_reads_as_default :
  cloneSoundSource None = SoundDefault
  ∧ successSoundMode_get (Some Samples.emptySounds) = ModeDefault.
Proof. split; reflexivity. Qed.

(** C8. Setting the mode of an effect to "file" keeps the slot's path when
    the slot is a file source with a path, and gives the file source with
    the empty path otherwise (a file source without a path, the default
    source, no slot); setting it to "default" makes the slot
    [{kind: "default"}], the path gone: after the path "x.wav", then
    "default", then "file", the path is empty. The path control shows
    these paths, and the other effect's slot is as normalization leaves
    it. *)
Theorem sound_mode_switch_paths (settings : QuickActionsSettings)
    (x : jsstring) :
  let qa := Some settings in
  (* success *)
  (∀ p, successSlot qa = Some (SoundFile (Some p)) →
        successSlot (successSoundMode_set ModeFile qa)
        = Some (SoundFile (Some p)))
  ∧ ((∀ p, successSlot qa ≠ Some (SoundFile (Some p))) →
       successSlot (successSoundMode_set ModeFile qa)
       = Some (SoundFile (Some [])))
  ∧ successSlot (successSoundMode_set ModeFile qa)
    = Some (SoundFile (Some (pathOf (successSlot qa))))
  ∧ successSoundPath_get (successSoundMode_set ModeFile qa)
    = successSoundPath_get qa
  ∧ (isFileSource (successSlot qa) = false →
       successSoundPath_get (successSoundMode_set ModeFile qa) = [])
  ∧ successSlot (successSoundMode_set ModeDefault qa) = Some SoundDefault
  ∧ successSoundPath_get (successSoundMode_set ModeDefault qa) = []
  ∧ successSlot
      (successSoundMode_set ModeFile
         (successSoundMode_set ModeDefault (successSoundPath_set x qa)))
    = Some (SoundFile (Some []))
  ∧ successSlot (successSoundPath_set x qa) = Some (SoundFile (Some x))
  ∧ successSlot (successSoundMode_set ModeFile (successSoundPath_set x qa))
    = Some (SoundFile (Some x))
  ∧ (∀ mode, failureSlot (successSoundMode_set mode qa)
             = failureSlot (ensureQuickActionDefaults qa))
  (* failure *)
  ∧ (∀ p, failureSlot qa = Some (SoundFile (Some p)) →
          failureSlot (failureSoundMode_set ModeFile qa)
          = Some (SoundFile (Some p)))
  ∧ ((∀ p, failureSlot qa ≠ Some (SoundFile (Some p))) →
       failureSlot (failureSoundMode_set ModeFile qa)
       = Some (SoundFile (Some [])))
  ∧ failureSlot (failureSoundMode_set ModeFile qa)
    = Some (SoundFile (Some (pathOf (failureSlot qa))))
  ∧ failureSoundPath_get (failureSoundMode_set ModeFile qa)
    = failureSoundPath_get qa
  ∧ (isFileSource (failureSlot qa) = false →
       failureSoundPath_get (failureSoundMode_set ModeFile qa) = [])
  ∧ failureSlot (failureSoundMode_set ModeDefault qa) = Some SoundDefault
  ∧ failureSoundPath_get (failureSoundMode_set ModeDefault qa) = []
  ∧ failureSlot
      (failureSoundMode_set ModeFile
         (failureSoundMode_set ModeDefault (failureSoundPath_set x qa)))
    = Some (SoundFile (Some []))
  ∧ failureSlot (failureSoundPath_set x qa) = Some (SoundFile (Some x))
  ∧ failureSlot (failureSoundMode_set ModeFile (failureSoundPath_set x qa))
    = Some (SoundFile (Some x))
  ∧ (∀ mode, successSlot (failureSoundMode_set mode qa)
             = successSlot (ensureQuickActionDefaults qa)).
Proof.
  destruct settings as [es en [[ [[|[p|]]|] [[|[q|]]|] ]|]]; simpl;
    repeat split;
    try done; try congruence;
    try (intros H; by destruct (H _ eq_refl));
    try (by intros []).
Qed.

(** The slot of each effect holds a file with a path: switching to "file"
    keeps the files. *)
Lemma sound_mode_switch_paths_witness :
  successSlot (successSoundMode_set ModeFile (Some Samples.wavSounds))
  = Some (SoundFile (Some (str "x.wav")))
  ∧ failureSlot (failureSoundMode_set ModeFile (Some Samples.wavSounds))
    = Some (SoundFile (Some (str "y.wav"))).
Proof.
  destruct (sound_mode_switch_paths Samples.wavSounds (str "z.wav"))
    as (Hs & _ & _ & _ & _ & _ & _ & _ & _ & _ & _ & Hf & _).
  split; [apply Hs|apply Hf]; reflexivity.
Defined.

(** The scenario of the specification. *)
Example xwav_default_file :
  successSoundPath_get (successSoundPath_set (str "x.wav") (Some Samples.emptySounds))
  = str "x.wav"
  ∧ successSoundPath_get
      (successSoundMode_set ModeFile
         (successSoundMode_set ModeDefault
            (successSoundPath_set (str "x.wav") (Some Samples.emptySounds))))
    = []
  ∧ successSoundMode_get
      (successSoundMode_set ModeFile
         (successSoundMode_set ModeDefault
            (successSoundPath_set (str "x.wav") (Some Samples.emptySounds))))
    = ModeFile.
Proof. repeat split. Qed.

(** *** Importing the paths of another device *)






(** Device B had ["/b/save"]: the import replaces it, the fill-gap copy
    keeps it. *)
Example import_replaces_copy_keeps :
  (∃ g u, games (importFromDevice Samples.devA
                   (Resolves Management.ActConfirm) (Resolves (Ok ()))
                   (Samples.settingsOf Samples.filledGame)) = Some [g]
          ∧ save_paths g = Some [u]
          ∧ entry (paths u) Samples.devB = Some (str "/a/save"))
  ∧ (∃ u, save_paths (fst (Management.copyGame Samples.devA Samples.devB
                             Samples.filledGame)) = Some [u]
          ∧ entry (paths u) Samples.devB = Some (str "/b/save")).
Proof.
  split.
  - vm_compute. do 2 eexists. split; [reflexivity|]. split; reflexivity.
  - vm_compute. eexists. split; reflexivity.
Qed.

End SettingsFacts.

(** ** More of the management page *)

Module ManagementMoreFacts.

Import Management ManagementMore Spec ManagementFacts.












(** *** Saving from the drawer *)

Lemma findIndex_Some (h : gmap loc Game) (gs : list loc) (n : jsstring)
    (i : nat) :
  findIndex h gs n = Some i →
  ∃ l0 g0, gs !! i = Some l0 ∧ h !! l0 = Some g0 ∧ name g0 = n
           ∧ ∀ j l1 g1, (j < i)%nat → gs !! j = Some l1 → h !! l1 = Some g1 →
                        name g1 ≠ n.
Proof.
  unfold findIndex. destruct (list_find _ gs) as [[k l0]|] eqn:Hf; [|done].
  intros [= <-]. apply list_find_Some in Hf as (Hl & Hn & Hmin).
  unfold nameIs in Hn. destruct (h !! l0) as [g0|] eqn:Hg0; [|done].
  apply bool_decide_eq_true in Hn. exists l0, g0. repeat split; try done.
  intros j l1 g1 Hj Hl1 Hg1 Hname. apply (Hmin j l1 Hl1 Hj).
  unfold nameIs. rewrite Hg1. by apply bool_decide_eq_true.
Qed.

Lemma findIndex_None (h : gmap loc Game) (gs : list loc) (n : jsstring) :
  findIndex h gs n = None →
  ∀ l1 g1, l1 ∈ gs → h !! l1 = Some g1 → name g1 ≠ n.
Proof.
  unfold findIndex. destruct (list_find _ gs) as [[k l0]|] eqn:Hf; [done|].
  intros _ l1 g1 Hin Hg1 Hname. apply list_find_None in Hf.
  rewrite Forall_forall in Hf. apply (Hf l1 Hin).
  unfold nameIs. rewrite Hg1. by apply bool_decide_eq_true.
Qed.

(** X3. [on_drawer_save_changes] makes the emitted object the page's game
    and closes the drawer. When the configuration has a game of that name,
    the first such slot of [config.value.games] now refers to the emitted
    object (so page and configuration share it), and the configuration is
    saved once; when it has none, the list is untouched, nothing is saved
    and the "game not found" error is shown. *)
Theorem drawer_save_replaces_game (l : loc) (save : Awaited (Result unit))
    (s : Page) (g : Game) :
  heap s !! l = Some g →
  game (on_drawer_save_changes l save s) = Some l
  ∧ heap (on_drawer_save_changes l save s) = heap s
  ∧ drawer (on_drawer_save_changes l save s) = false
  ∧ ((∃ i l0 g0,
        games s !! i = Some l0 ∧ heap s !! l0 = Some g0 ∧ name g0 = name g
        ∧ (∀ j l1 g1, (j < i)%nat → games s !! j = Some l1 →
                      heap s !! l1 = Some g1 → name g1 ≠ name g)
        ∧ games (on_drawer_save_changes l save s) = <[i := l]> (games s)
        ∧ games (on_drawer_save_changes l save s) !! i = Some l
        ∧ saveConfigCalls (log (on_drawer_save_changes l save s))
          = Datatypes.S (saveConfigCalls (log s)))
     ∨ ((∀ l1 g1, l1 ∈ games s → heap s !! l1 = Some g1 → name g1 ≠ name g)
        ∧ games (on_drawer_save_changes l save s) = games s
        ∧ log (on_drawer_save_changes l save s)
          = log s ++ [ShowError (T "error.game_not_found")])).
Proof.
  intros Hl. unfold on_drawer_save_changes. rewrite Hl.
  destruct (findIndex (heap s) (games s) (name g)) as [i|] eqn:Hf;
    cbn [game heap drawer games log].
  - repeat split. left.
    destruct (findIndex_Some _ _ _ _ Hf) as (l0 & g0 & Hi & Hg0 & Hn & Hmin).
    exists i, l0, g0. repeat split; try done.
    + apply list_lookup_insert_eq. by apply lookup_lt_Some in Hi.
    + rewrite !saveConfigCalls_app, saveConfigCalls_saveConfig.
      unfold saveConfigCalls. simpl. lia.
  - repeat split. right. repeat split.
    by apply findIndex_None.
Qed.

Lemma drawer_save_replaces_game_witness :
  game (on_drawer_save_changes 1%nat (Resolves (Ok ()))
          {| heap := <[1%nat := Samples.filledGame]>
                       (<[0%nat := Samples.gapGame]> ∅);
             games := [0%nat]; game := Some 0%nat;
             currentDevice := Some Samples.laptop; drawer := true;
             log := [] |}) = Some 1%nat.
Proof.
  apply (drawer_save_replaces_game 1%nat (Resolves (Ok ()))
           {| heap := <[1%nat := Samples.filledGame]>
                        (<[0%nat := Samples.gapGame]> ∅);
              games := [0%nat]; game := Some 0%nat;
              currentDevice := Some Samples.laptop; drawer := true;
              log := [] |} Samples.filledGame).
  reflexivity.
Defined.

(** *** Launching the game *)





(** A device called "constructor" with no launch path: the command is
    called with the constructor every object inherits. *)
Example inherited_member_is_launched :
  snd (launch_game (Resolves (Ok ()))
         {| heap := <[0%nat := Samples.gapGame]> ∅; games := [0%nat];
            game := Some 0%nat;
            currentDevice := Some {| id := str "constructor";
                                     device_name := str "laptop" |};
            drawer := false; log := [] |})
  = OpenedInherited.
Proof. vm_compute. reflexivity. Qed.

End ManagementMoreFacts.

(** ** Creating and restoring snapshots *)

Module SnapshotsFacts.

Import GlobalLoading Snapshots GlobalLoadingFacts.

Local Open Scope nat_scope.

Section Facts.

Variable t : string → jsstring.

Lemma exclusive_initial : exclusive initial.
Proof. repeat split; simpl; try lia; done. Qed.

Lemma enter_length (m : option jsstring) (st : list Message) :
  length (withLoading_enter m Returns st) = Datatypes.S (length st).
Proof. unfold withLoading_enter, startLoading. rewrite length_app. simpl. lia. Qed.

Lemma resume_length (o : Settled) (st : list Message) :
  length (fst (withLoading_resume o st)) = pred (length st).
Proof. unfold withLoading_resume. simpl. rewrite stopLoading_length. lia. Qed.

Lemma note_exclusive (a : list Act) (s : Saves) :
  exclusive s → exclusive (note a s).
Proof. done. Qed.

(** A command is awaited only while its flag is down. *)
Lemma exclusive_idle (s : Saves) :
  exclusive s →
  backup_button_backup_limit s = true → apply_button_apply_limit s = true →
  creating s = 0 ∧ restoring s = 0.
Proof.
  intros (Hone & Hb & Ha & _) Hbl Hal. split.
  - destruct (creating s) as [|[|n]]; [done| |lia].
    specialize (Hb eq_refl). congruence.
  - destruct (restoring s) as [|[|n]]; [done| |lia].
    specialize (Ha eq_refl). congruence.
Qed.

Lemma step_exclusive (s s' : Saves) (e : Event) :
  exclusive s → step t s e = Some s' → exclusive s'.
Proof.
  intros Hex Hstep. pose proof Hex as (Hone & Hb & Ha & Hlen).
  destruct e as [|r|date|r| |text]; simpl in Hstep.
  - injection Hstep as <-. unfold send_save_to_background.
    cbn [backup_button_time_limit backup_button_backup_limit
         apply_button_apply_limit note].
    destruct (backup_button_time_limit s);
      [|by do 2 apply note_exclusive].
    destruct (backup_button_backup_limit s) eqn:Hbl;
      [|by do 2 apply note_exclusive].
    destruct (apply_button_apply_limit s) eqn:Hal;
      [|by do 2 apply note_exclusive].
    destruct (exclusive_idle s Hex Hbl Hal) as [Hc Hr].
    unfold exclusive. cbn [negb note creating restoring messageStack
           backup_button_backup_limit apply_button_apply_limit].
    rewrite enter_length, Hlen, Hc, Hr.
    repeat split; try lia; try done.
  - destruct (0 <? creating s) eqn:Hc; [|done]. apply Nat.ltb_lt in Hc.
    injection Hstep as <-. unfold exclusive.
    destruct r as [res|]; unfold send_save_resume, apply_save_resume;
      cbn [negb note creating restoring messageStack
           backup_button_backup_limit apply_button_apply_limit];
      rewrite resume_length;
      repeat split; try lia; intros; try lia; apply Ha; lia.
  - injection Hstep as <-. unfold apply_save.
    cbn [backup_button_time_limit backup_button_backup_limit
         apply_button_apply_limit note].
    destruct (apply_button_apply_limit s) eqn:Hal;
      [|by do 2 apply note_exclusive].
    destruct (backup_button_backup_limit s) eqn:Hbl;
      [|by do 2 apply note_exclusive].
    destruct (exclusive_idle s Hex Hbl Hal) as [Hc Hr].
    unfold exclusive. cbn [negb note creating restoring messageStack
           backup_button_backup_limit apply_button_apply_limit].
    rewrite enter_length, Hlen, Hc, Hr.
    repeat split; try lia; try done.
  - destruct (0 <? restoring s) eqn:Hc; [|done]. apply Nat.ltb_lt in Hc.
    injection Hstep as <-. unfold exclusive.
    destruct r as [res|]; unfold send_save_resume, apply_save_resume;
      cbn [negb note creating restoring messageStack
           backup_button_backup_limit apply_button_apply_limit];
      rewrite resume_length;
      repeat split; try lia; intros; try lia; apply Hb; lia.
  - destruct (0 <? timeouts s); [|done]. by injection Hstep as <-.
  - by injection Hstep as <-.
Qed.

Lemma run_exclusive (es : list Event) (s s' : Saves) :
  exclusive s → run t s es = Some s' → exclusive s'.
Proof.
  revert s. induction es as [|e es IH]; intros s Hs Hrun; simpl in Hrun.
  - by injection Hrun as <-.
  - destruct (step t s e) as [s1|] eqn:He; [|done].
    apply (IH s1); [|done]. by apply (step_exclusive s s1 e).
Qed.

(** X6. Whatever the user clicks and however the commands settle, at most
    one snapshot command (create or restore) is awaited at a time, and the
    loading indicator is on exactly while one is. *)
Theorem snapshot_commands_never_overlap (es : list Event) (s : Saves) :
  run t initial es = Some s →
  creating s + restoring s ≤ 1
  ∧ (isLoading (messageStack s) = true ↔ creating s + restoring s = 1).
Proof.
  intros Hrun.
  destruct (run_exclusive es initial s exclusive_initial Hrun)
    as (Hone & _ & _ & Hlen).
  split; [done|]. unfold isLoading. rewrite Hlen, Nat.ltb_lt. lia.
Qed.

(** *** After a rejected command *)

Lemma commands_app (a b : list Act) :
  commands (a ++ b) = commands a + commands b.
Proof. unfold commands. by rewrite List.filter_app, length_app. Qed.

Lemma commands_note (a : list Act) (s : Saves) :
  commands a = 0 → commands (acts (note a s)) = commands (acts s).
Proof. intros Ha. simpl. rewrite commands_app, Ha. lia. Qed.

(** With the backup flag down and no [createSnapshot] awaited, no event
    puts the flag up again or sends a command. *)
Lemma step_backup_down (s s' : Saves) (e : Event) :
  backup_button_backup_limit s = false → creating s = 0 →
  step t s e = Some s' →
  backup_button_backup_limit s' = false ∧ creating s' = 0
  ∧ commands (acts s') = commands (acts s).
Proof.
  intros Hbl Hc Hstep. destruct e as [|r|date|r| |text]; simpl in Hstep.
  - injection Hstep as <-. unfold send_save_to_background.
    cbn [backup_button_time_limit backup_button_backup_limit
         apply_button_apply_limit note]. rewrite Hbl.
    destruct (backup_button_time_limit s); cbn [negb];
      (repeat split; [done..|]); by rewrite !commands_note.
  - by rewrite Hc in Hstep.
  - injection Hstep as <-. unfold apply_save.
    cbn [backup_button_time_limit backup_button_backup_limit
         apply_button_apply_limit note]. rewrite Hbl.
    destruct (apply_button_apply_limit s); cbn [negb];
      (repeat split; [done..|]); by rewrite !commands_note.
  - destruct (0 <? restoring s); [|done]. injection Hstep as <-.
    destruct r as [res|]; (repeat split; [done..|]); [|done].
    cbn [apply_save_resume acts]. rewrite commands_app.
    unfold commands at 2. simpl. lia.
  - destruct (0 <? timeouts s); [|done]. by injection Hstep as <-.
  - by injection Hstep as <-.
Qed.

(** The same with the restore flag down and no [restoreSnapshot]
    awaited. *)
Lemma step_apply_down (s s' : Saves) (e : Event) :
  apply_button_apply_limit s = false → restoring s = 0 →
  step t s e = Some s' →
  apply_button_apply_limit s' = false ∧ restoring s' = 0
  ∧ commands (acts s') = commands (acts s).
Proof.
  intros Hal Hr Hstep. destruct e as [|r|date|r| |text]; simpl in Hstep.
  - injection Hstep as <-. unfold send_save_to_background.
    cbn [backup_button_time_limit backup_button_backup_limit
         apply_button_apply_limit note]. rewrite Hal.
    destruct (backup_button_time_limit s), (backup_button_backup_limit s);
      cbn [negb]; (repeat split; [done..|]); by rewrite !commands_note.
  - destruct (0 <? creating s); [|done]. injection Hstep as <-.
    destruct r as [res|]; (repeat split; [done..|]); [|done].
    cbn [send_save_resume acts]. rewrite commands_app.
    unfold commands at 2. simpl. lia.
  - injection Hstep as <-. unfold apply_save.
    cbn [backup_button_time_limit backup_button_backup_limit
         apply_button_apply_limit note]. rewrite Hal. cbn [negb].
    (repeat split; [done..|]); by rewrite !commands_note.
  - by rewrite Hr in Hstep.
  - destruct (0 <? timeouts s); [|done]. by injection Hstep as <-.
  - by injection Hstep as <-.
Qed.

Lemma run_backup_down (es : list Event) (s s' : Saves) :
  backup_button_backup_limit s = false → creating s = 0 →
  run t s es = Some s' → commands (acts s') = commands (acts s).
Proof.
  revert s. induction es as [|e es IH]; intros s Hbl Hc Hrun; simpl in Hrun.
  - by injection Hrun as <-.
  - destruct (step t s e) as [s1|] eqn:He; [|done].
    destruct (step_backup_down s s1 e Hbl Hc He) as (Hbl1 & Hc1 & Hsame).
    by rewrite (IH s1 Hbl1 Hc1 Hrun).
Qed.

Lemma run_apply_down (es : list Event) (s s' : Saves) :
  apply_button_apply_limit s = false → restoring s = 0 →
  run t s es = Some s' → commands (acts s') = commands (acts s).
Proof.
  revert s. induction es as [|e es IH]; intros s Hal Hr Hrun; simpl in Hrun.
  - by injection Hrun as <-.
  - destruct (step t s e) as [s1|] eqn:He; [|done].
    destruct (step_apply_down s s1 e Hal Hr He) as (Hal1 & Hr1 & Hsame).
    by rewrite (IH s1 Hal1 Hr1 Hrun).
Qed.

(** X7. When [createSnapshot] or [restoreSnapshot] rejects (the call
    throws), the function that awaited it ends in [withLoading]'s [finally]
    with its flag still down: from then on every backup and every restore
    the user asks for on this page is refused, and no snapshot command is
    sent any more. *)
Theorem rejected_command_blocks_the_page (es es' : list Event)
    (s s1 s' : Saves) :
  run t initial es = Some s →
  step t s (CreateSettles Rejects) = Some s1
  ∨ step t s (RestoreSettles Rejects) = Some s1 →
  run t s1 es' = Some s' →
  commands (acts s') = commands (acts s).
Proof.
  intros Hrun Hrej Hrun'.
  pose proof (run_exclusive es initial s exclusive_initial Hrun)
    as (Hone & Hb & Ha & _).
  destruct Hrej as [Hrej|Hrej]; simpl in Hrej.
  - destruct (0 <? creating s) eqn:Hc; [|done]. apply Nat.ltb_lt in Hc.
    assert (Hs1 : backup_button_backup_limit s1 = false ∧ creating s1 = 0
                  ∧ acts s1 = acts s).
    { injection Hrej as <-. simpl. repeat split; [apply Hb|]; lia. }
    destruct Hs1 as (Hbl & Hc1 & <-).
    by apply (run_backup_down es' s1 s').
  - destruct (0 <? restoring s) eqn:Hc; [|done]. apply Nat.ltb_lt in Hc.
    assert (Hs1 : apply_button_apply_limit s1 = false ∧ restoring s1 = 0
                  ∧ acts s1 = acts s).
    { injection Hrej as <-. simpl. repeat split; [apply Ha|]; lia. }
    destruct Hs1 as (Hal & Hr1 & <-).
    by apply (run_apply_down es' s1 s').
Qed.

End Facts.

Lemma snapshot_commands_never_overlap_witness :
  creating (after busyTrace) + restoring (after busyTrace) ≤ 1
  ∧ (isLoading (messageStack (after busyTrace)) = true
     ↔ creating (after busyTrace) + restoring (after busyTrace) = 1).
Proof.
  apply (snapshot_commands_never_overlap str busyTrace (after busyTrace)).
  vm_compute. reflexivity.
Defined.

Lemma rejected_command_blocks_the_page_witness :
  commands (acts (after ([ClickBackup; CreateSettles Rejects] ++ busyTrace)))
  = commands (acts (after [ClickBackup])).
Proof.
  apply (rejected_command_blocks_the_page str [ClickBackup] busyTrace
           (after [ClickBackup]) (after [ClickBackup; CreateSettles Rejects])
           (after ([ClickBackup; CreateSettles Rejects] ++ busyTrace))).
  - vm_compute. reflexivity.
  - left. vm_compute. reflexivity.
  - vm_compute. reflexivity.
Defined.

End SnapshotsFacts.

(** ** Which message the loading stack shows *)

Module LoadingOrderFacts.

Import GlobalLoading LoadingOrder GlobalLoadingFacts.

Local Open Scope nat_scope.

Lemma filter_other_snoc (pl : list (nat * Message)) (i : nat) (m : Message) :
  i ∉ map fst pl →
  List.filter (λ x, negb (fst x =? i)) (pl ++ [(i, m)]) = pl.
Proof.
  intros Hi. rewrite List.filter_app. simpl. rewrite Nat.eqb_refl. simpl.
  rewrite app_nil_r. induction pl as [|[j mj] pl IH]; [done|].
  simpl in *. apply not_elem_of_cons in Hi as [Hne Hi].
  replace (j =? i) with false by (symmetry; apply Nat.eqb_neq; congruence).
  simpl. by rewrite IH.
Qed.

Lemma step_mirrors (w w' : World) (pl : list (nat * Message)) (e : Event) :
  mirrors w pl → step w e = Some w' →
  match e with
  | Settle i _ => ∃ m, last pl = Some (i, m)
  | Call _ _ _ => True
  end →
  mirrors w' (track pl e).
Proof.
  intros (Hst & Hnd & Hin) Hstep Hnest.
  destruct e as [i message inv|i o]; simpl in Hstep.
  - case_bool_decide as Hi; [done|]. injection Hstep as <-.
    unfold mirrors. simpl. destruct inv.
    + unfold withLoading_enter, startLoading. rewrite stopLoading_push.
      repeat split; try done. intros j Hj. set_solver.
    + unfold withLoading_enter, startLoading. rewrite !map_app, Hst. simpl.
      repeat split.
      * apply NoDup_app. split; [done|]. split; [|apply NoDup_singleton].
        intros j Hj Hj'. apply list_elem_of_singleton in Hj'. subst.
        by apply Hi, Hin.
      * intros j Hj. apply elem_of_app in Hj as [Hj|Hj]; [set_solver|].
        apply list_elem_of_singleton in Hj. set_solver.
  - destruct (_ && _); [|done]. injection Hstep as <-.
    destruct Hnest as [m Hlast].
    apply last_Some in Hlast as [pl' ->].
    rewrite map_app in Hnd. apply NoDup_app in Hnd as (Hnd & Hdisj & _).
    assert (Hi : i ∉ map fst pl').
    { intros Hi. apply (Hdisj i Hi). simpl. apply list_elem_of_here. }
    unfold mirrors. simpl. rewrite filter_other_snoc by done.
    rewrite Hst, map_app. simpl. rewrite stopLoading_push.
    repeat split; try done.
    intros j Hj. apply Hin. rewrite map_app. apply elem_of_app. by left.
Qed.

Lemma run_mirrors (es : list Event) (w w' : World)
    (pl : list (nat * Message)) :
  mirrors w pl → run w es = Some w' → nested pl es →
  mirrors w' (pendingAfter pl es).
Proof.
  revert w pl. induction es as [|e es IH]; intros w pl Hm Hrun Hn;
    simpl in Hrun.
  - by injection Hrun as <-.
  - destruct (step w e) as [w1|] eqn:He; [|done].
    destruct Hn as [Hn1 Hn]. simpl.
    apply (IH w1 (track pl e)); [|done|done].
    by apply (step_mirrors w w1 pl e).
Qed.

(** X8. When operations settle in the reverse order of their calls (nested
    [withLoading] scopes), the stack holds exactly the messages of the
    pending calls, oldest first, and the message shown is that of the most
    recently started pending call, or the default text when none is
    pending. *)
Theorem nested_calls_show_the_youngest (es : list Event) (w : World) :
  run initial es = Some w → nested [] es →
  messageStack w = map snd (pendingAfter [] es)
  ∧ loadingMessage (messageStack w)
    = match last (pendingAfter [] es) with
      | Some (_, m) => m
      | None => T "common.operation_in_progress"
      end.
Proof.
  intros Hrun Hn.
  assert (Hm : mirrors initial []).
  { repeat split; [constructor|]. intros i Hi. by apply not_elem_of_nil in Hi. }
  destruct (run_mirrors es initial w [] Hm Hrun Hn) as (Hst & _).
  split; [done|]. rewrite Hst. unfold loadingMessage.
  destruct (pendingAfter [] es) as [|x pl] using rev_ind; [done|].
  rewrite map_app, length_app, last_snoc. simpl.
  replace (length (map snd pl) + 1 =? 0) with false
    by (symmetry; apply Nat.eqb_neq; lia).
  rewrite List.last_last. by destruct x.
Qed.

Lemma nested_calls_show_the_youngest_witness :
  [T "common.operation_in_progress"] = map snd (pendingAfter [] nestedTrace)
  ∧ loadingMessage [T "common.operation_in_progress"]
    = match last (pendingAfter [] nestedTrace) with
      | Some (_, m) => m
      | None => T "common.operation_in_progress"
      end.
Proof.
  apply (nested_calls_show_the_youngest nestedTrace
           {| messageStack := [T "common.operation_in_progress"];
              started := {[1; 0]}; settled := {[1]} |}).
  - vm_compute. reflexivity.
  - simpl. repeat split. by eexists.
Defined.

(** X9. [stopLoading] takes the top message whichever operation settled,
    and does nothing on an empty stack: [k] calls leave [length st - k]
    messages, the oldest ones. So when the older of two overlapping
    operations settles first, the message left is the older one's. *)
Theorem stopLoading_takes_the_top (k : nat) (st : list Message)
    (i j : nat) (m0 m1 : option jsstring) (o : Settled) :
  Nat.iter k stopLoading st = take (length st - k) st
  ∧ (i ≠ j →
     messageStack <$>
       run initial [Call i m0 Returns; Call j m1 Returns; Settle i o]
     = Some [messageOf m0]).
Proof.
  split.
  - revert st. induction k as [|k IH]; intros st.
    + rewrite Nat.sub_0_r. by rewrite firstn_all.
    + rewrite Nat.iter_succ_r.
      destruct st as [|x st] using rev_ind; [by rewrite IH|].
      rewrite stopLoading_push, IH, length_app. simpl.
      replace (length st + 1 - Datatypes.S k) with (length st - k) by lia.
      rewrite take_app_le by lia. done.
  - intros Hij. simpl.
    rewrite bool_decide_eq_false_2 by set_solver. simpl.
    rewrite bool_decide_eq_false_2 by set_solver. simpl.
    rewrite bool_decide_eq_true_2 by set_solver.
    rewrite bool_decide_eq_false_2 by set_solver. simpl.
    unfold withLoading_enter, startLoading. simpl.
    by destruct m0, m1.
Qed.

Lemma stopLoading_takes_the_top_witness :
  messageStack <$>
    run initial [Call 0 None Returns; Call 1 (Some (str "saving")) Returns;
                 Settle 0 Rejected]
  = Some [messageOf None].
Proof.
  apply (stopLoading_takes_the_top 0 [] 0 1 None (Some (str "saving"))
           Rejected).
  lia.
Defined.

End LoadingOrderFacts.

(** ** Closing a notification *)

Module NotificationCloseFacts.

Import Notification NotificationClose NotificationFacts.

Local Open Scope Z_scope.

Lemma filter_queue_absent (i : jsstring) (q : list QueuedNotification) :
  (∀ n, n ∈ q → qid n ≠ i) →
  List.filter (λ item, negb (bool_decide (qid item = i))) q = q.
Proof.
  induction q as [|n q IH]; intros Hq; [done|]. simpl.
  rewrite bool_decide_eq_false_2 by (apply Hq, list_elem_of_here). simpl.
  rewrite IH; [done|]. intros m Hm. by apply Hq, list_elem_of_further.
Qed.

Lemma close_absent (i : jsstring) (s : Notifier) :
  (∀ n, n ∈ messageQueue s → qid n ≠ i) →
  (∀ a, a ∈ activeNotifications s → aid a ≠ i) →
  closeNotification i s = (s, None).
Proof.
  intros Hq Ha. unfold closeNotification.
  rewrite (filter_queue_absent i _ Hq).
  destruct (list_find _ _) as [[k a]|] eqn:Hfind.
  - apply list_find_Some in Hfind as (Hk & Hid & _).
    exfalso. apply (Ha a); [|done]. by apply list_elem_of_lookup_2 in Hk.
  - by destruct s.
Qed.

(** X10. Closing an identifier that is neither queued nor active changes
    nothing and closes nothing. *)
Theorem closeNotification_unknown (i : jsstring) (s : Notifier) :
  (∀ n, n ∈ messageQueue s → qid n ≠ i) →
  (∀ a, a ∈ activeNotifications s → aid a ≠ i) →
  closeNotification i s = (s, None).
Proof. apply close_absent. Qed.

Lemma closeNotification_unknown_witness :
  closeNotification (str "none") mixedEnd = (mixedEnd, None).
Proof.
  apply (closeNotification_unknown (str "none") mixedEnd).
  - intros n Hn. vm_compute in Hn. by apply not_elem_of_nil in Hn.
  - intros a Ha. vm_compute in Ha.
    repeat (apply elem_of_cons in Ha as [->|Ha]; [vm_compute; discriminate|]).
    by apply not_elem_of_nil in Ha.
Defined.

(** *** What a close removes *)

Lemma filter_display (i : jsstring) (q : list QueuedNotification) :
  map display (List.filter (λ item, negb (bool_decide (qid item = i))) q)
  = List.filter (λ x, negb (bool_decide (fst x = i))) (map display q).
Proof.
  induction q as [|n q IH]; [done|]. simpl.
  destruct (bool_decide (qid n = i)); simpl; by rewrite IH.
Qed.

Lemma filter_shown_absent (i : jsstring) (l : list ActiveNotification) :
  (∀ a, a ∈ l → aid a ≠ i) →
  List.filter (λ x : jsstring * NotificationParams,
                 negb (bool_decide (fst x = i)))
    (map (λ a, (aid a, handle a)) l)
  = map (λ a, (aid a, handle a)) l.
Proof.
  induction l as [|a l IH]; intros Hl; [done|]. simpl.
  rewrite bool_decide_eq_false_2 by (apply Hl, list_elem_of_here). simpl.
  rewrite IH; [done|]. intros b Hb. by apply Hl, list_elem_of_further.
Qed.

Lemma filter_shown_delete (i : jsstring) (l : list ActiveNotification)
    (k : nat) (a : ActiveNotification) :
  NoDup (map aid l) → l !! k = Some a → aid a = i →
  List.filter (λ x : jsstring * NotificationParams,
                 negb (bool_decide (fst x = i)))
    (map (λ a, (aid a, handle a)) l)
  = map (λ a, (aid a, handle a)) (delete k l).
Proof.
  revert k. induction l as [|x l IH]; intros k Hnd Hk Hid; [done|].
  simpl in Hnd. apply NoDup_cons in Hnd as [Hx Hnd].
  destruct k as [|k]; simpl in Hk.
  - injection Hk as ->. simpl. rewrite bool_decide_eq_true_2 by done. simpl.
    apply filter_shown_absent. intros b Hb Hbi. apply Hx.
    rewrite Hid, <- Hbi. apply list_elem_of_In, in_map.
    by apply list_elem_of_In.
  - simpl. rewrite bool_decide_eq_false_2.
    + simpl. f_equal. by apply IH.
    + intros Hxi. apply Hx. rewrite Hxi, <- Hid.
      apply list_elem_of_In, in_map, list_elem_of_In.
      by apply list_elem_of_lookup_2 in Hk.
Qed.

Lemma same_id_same_active (l : list ActiveNotification)
    (a b : ActiveNotification) :
  NoDup (map aid l) → a ∈ l → b ∈ l → aid a = aid b → a = b.
Proof.
  induction l as [|x l IH]; intros Hnd Ha Hb Hab.
  - by apply not_elem_of_nil in Ha.
  - simpl in Hnd. apply NoDup_cons in Hnd as [Hx Hnd].
    apply elem_of_cons in Ha as [->|Ha]; apply elem_of_cons in Hb as [->|Hb].
    + done.
    + exfalso. apply Hx. rewrite Hab.
      by apply list_elem_of_In, in_map, list_elem_of_In.
    + exfalso. apply Hx. rewrite <- Hab.
      by apply list_elem_of_In, in_map, list_elem_of_In.
    + by apply IH.
Qed.

Lemma line_ids (s : Notifier) :
  map fst (line s) = map aid (activeNotifications s) ++ map qid (messageQueue s).
Proof.
  unfold line, displayed. by rewrite map_app, !map_map.
Qed.

(** X11. With identifiers that are all different, [closeNotification(id)]
    removes exactly the notification [id] from the shown and waiting ones
    and keeps the order of the others; it closes a handle exactly when [id]
    was shown, and that one; what was rendered stays; closing the same
    identifier again does nothing. *)
Theorem closeNotification_removes (i : jsstring) (s : Notifier) :
  NoDup (map fst (line s)) →
  line (fst (closeNotification i s))
  = List.filter (λ x, negb (bool_decide (fst x = i))) (line s)
  ∧ (∀ p, snd (closeNotification i s) = Some p ↔ (i, p) ∈ displayed s)
  ∧ rendered (fst (closeNotification i s)) = rendered s
  ∧ closeNotification i (fst (closeNotification i s))
    = (fst (closeNotification i s), None).
Proof.
  intros Hnd. rewrite line_ids in Hnd.
  apply NoDup_app in Hnd as (Hnda & Hdisj & Hndq).
  assert (Hq : ∀ n, n ∈ List.filter
                       (λ item, negb (bool_decide (qid item = i)))
                       (messageQueue s) → qid n ≠ i).
  { intros n Hn. apply list_elem_of_In, filter_In in Hn as [_ Hn].
    apply negb_true_iff in Hn. by apply bool_decide_eq_false in Hn. }
  destruct (closeNotification i s) as [s' h] eqn:Hclose.
  unfold closeNotification in Hclose. unfold line, displayed.
  destruct (list_find _ (activeNotifications s)) as [[k a]|] eqn:Hfind;
    injection Hclose as <- <-;
    cbn [fst snd messageQueue activeNotifications rendered].
  - apply list_find_Some in Hfind as (Hk & Hid & Hmin).
    rewrite List.filter_app, filter_display,
      (filter_shown_delete i _ k a Hnda Hk Hid).
    repeat split; try done.
    + intros [= <-]. rewrite <- Hid. apply list_elem_of_In, in_map_iff.
      exists a. split; [done|]. apply list_elem_of_In.
      by apply list_elem_of_lookup_2 in Hk.
    + intros Hin. apply list_elem_of_In, in_map_iff in Hin as [b [Hb Hbin]].
      injection Hb as Hbi <-. apply list_elem_of_In in Hbin.
      f_equal. f_equal. apply (same_id_same_active (activeNotifications s));
        try done; [|congruence].
      by apply list_elem_of_lookup_2 in Hk.
    + apply close_absent; cbn [messageQueue activeNotifications]; [done|].
      intros b Hb Hbi.
      assert (Hbin : b ∈ activeNotifications s).
      { apply list_elem_of_In. apply list_elem_of_In in Hb.
        revert Hb. clear. revert k.
        induction (activeNotifications s) as [|x l IH]; intros k Hb; [done|].
        destruct k; simpl in *; [by right|].
        destruct Hb as [->|Hb]; [by left|right; by apply (IH k)]. }
      assert (b = a).
      { apply (same_id_same_active (activeNotifications s)); try done;
          [by apply list_elem_of_lookup_2 in Hk|congruence]. }
      subst b. apply list_elem_of_lookup in Hb as [j Hj].
      destruct (decide (j < k)%nat) as [Hlt|Hge].
      * rewrite list_lookup_delete_lt in Hj by done. by apply (Hmin j a Hj Hlt).
      * rewrite list_lookup_delete_ge in Hj by lia.
        assert (Datatypes.S j = k); [|lia].
        apply (NoDup_lookup (map aid (activeNotifications s)) _ _ i Hnda).
        -- rewrite <- Hid. change (map aid) with (fmap (M:=list) aid).
           by rewrite list_lookup_fmap, Hj.
        -- rewrite <- Hid. change (map aid) with (fmap (M:=list) aid).
           by rewrite list_lookup_fmap, Hk.
  - apply list_find_None in Hfind. rewrite Forall_forall in Hfind.
    rewrite List.filter_app, filter_display, filter_shown_absent by done.
    repeat split; try done.
    + intros Hin. exfalso.
      apply list_elem_of_In, in_map_iff in Hin as [b [Hb Hbin]].
      injection Hb as Hbi _. apply (Hfind b); [|done].
      by apply list_elem_of_In.
    + by apply close_absent.
Qed.

Lemma closeNotification_removes_witness :
  line (fst (closeNotification (str "p0q") mixedEnd))
  = List.filter (λ x, negb (bool_decide (fst x = str "p0q"))) (line mixedEnd).
Proof.
  apply (closeNotification_removes (str "p0q") mixedEnd).
  apply (bool_decide_unpack (NoDup (map fst (line mixedEnd)))).
  vm_compute. exact I.
Defined.

(** *** Traces with closes *)

Lemma loop_steady (s : Notifier) :
  timers s = [] → isProcessing s = true →
  (∀ t, lastRender s = Some t → t + 100 <= clock s) →
  paced (map fst (rendered s)) →
  steady (loop s).
Proof.
  destruct s as [q a p r t c]. unfold steady, single_worker, lastRender, loop.
  simpl. intros -> -> Hl Hp.
  destruct q as [|n rest]; simpl; [by repeat split|].
  rewrite lastRender_snoc. repeat split.
  - f_equal. lia.
  - lia.
  - rewrite map_app. by apply paced_snoc.
Qed.

Lemma step_steady (s s' : Notifier) (e : Notification.Event) :
  steady s → Notification.step s e = Some s' → steady s'.
Proof.
  intros (Hw & Hp) H. destruct e as [ty o i| |dt]; simpl in H.
  - injection H as <-. unfold addToQueue, processQueue.
    cbn [isProcessing messageQueue].
    destruct (isProcessing s) eqn:Hb; simpl.
    + unfold steady, single_worker, lastRender in *. simpl.
      split; [|done].
      destruct (timers s) as [|due [|]]; [|tauto|done].
      destruct Hw as [Hw _]. congruence.
    + rewrite length_app. simpl.
      replace (length (messageQueue s) + 1 =? 0)%nat with false
        by (symmetry; apply Nat.eqb_neq; lia).
      unfold single_worker in Hw.
      destruct (timers s) as [|due [|]] eqn:Ht;
        [|destruct Hw; congruence|done].
      destruct Hw as (_ & Hq & Hl). by apply loop_steady.
  - destruct (timers s) as [|due others] eqn:Ht; [done|].
    injection H as <-. unfold single_worker in Hw. rewrite Ht in Hw.
    destruct others; [|done]. destruct Hw as (Hb & Hl & Hc).
    apply loop_steady; simpl; try done.
    unfold lastRender in *. simpl. intros t Ht'. rewrite Hl in Ht'.
    injection Ht' as <-. lia.
  - destruct (0 <=? dt) eqn:Hdt; [|done]. injection H as <-.
    apply Z.leb_le in Hdt.
    unfold steady, single_worker, lastRender in *. simpl.
    split; [|done].
    destruct (timers s) as [|due [|]]; [| |done].
    + destruct Hw as (Hb & Hq & Hl). repeat split; try done.
      intros t Ht. specialize (Hl t Ht). lia.
    + destruct Hw as (Hb & Hl & Hc). repeat split; try done. lia.
Qed.

Lemma close_steady (i : jsstring) (s : Notifier) :
  steady s → steady (fst (closeNotification i s)).
Proof.
  intros (Hw & Hp). unfold closeNotification.
  destruct (list_find _ _) as [[k a]|];
    unfold steady, single_worker, lastRender in *; simpl;
    (split; [|done]);
    (destruct (timers s) as [|due [|]]; [|done|done]);
    destruct Hw as (Hb & -> & Hl); by repeat split.
Qed.

Lemma loop_backlog (s : Notifier) : backlog (loop s) = backlog s.
Proof.
  destruct s as [q a p r t c]. unfold loop, backlog. simpl.
  destruct q as [|n rest]; simpl; [done|].
  by rewrite map_app, <- app_assoc.
Qed.

Lemma step_backlog (s s' : Notifier) (e : Notification.Event) :
  Notification.step s e = Some s' →
  backlog s' = backlog s ++ map paramsOf (calls [e]).
Proof.
  destruct e as [ty o i| |dt]; simpl; intros H.
  - injection H as <-. unfold addToQueue, processQueue.
    destruct (_ || _); [|rewrite loop_backlog];
      unfold backlog; simpl; by rewrite map_app, app_assoc.
  - destruct (timers s) as [|due others] eqn:Ht; [done|].
    injection H as <-. rewrite loop_backlog. unfold backlog. simpl.
    by rewrite app_nil_r.
  - destruct (0 <=? dt); [|done]. injection H as <-.
    unfold backlog. simpl. by rewrite app_nil_r.
Qed.

Lemma filter_sublist_of {A B} (g : A → B) (f : A → bool) (l : list A) :
  map g (List.filter f l) `sublist_of` map g l.
Proof.
  induction l as [|x l IH]; simpl; [constructor|].
  destruct (f x); simpl; by constructor.
Qed.

Lemma close_backlog (i : jsstring) (s : Notifier) :
  backlog (fst (closeNotification i s)) `sublist_of` backlog s.
Proof.
  unfold closeNotification, backlog.
  destruct (list_find _ _) as [[k a]|]; simpl;
    (apply sublist_app; [done|]); apply filter_sublist_of.
Qed.

Lemma run_backlog (es : list NotificationClose.Event) (s s' : Notifier) :
  NotificationClose.run s es = Some s' →
  backlog s' `sublist_of` backlog s ++ map paramsOf (shows es).
Proof.
  revert s. induction es as [|e es IH]; intros s H; simpl in H.
  - injection H as <-. simpl. by rewrite app_nil_r.
  - destruct (NotificationClose.step s e) as [s1|] eqn:He; [|done].
    etrans; [exact (IH s1 H)|].
    destruct e as [e'|i]; simpl in He.
    + rewrite (step_backlog s s1 e' He).
      destruct e' as [ty o j| |dt]; simpl; rewrite <- ?app_assoc; simpl;
        rewrite ?app_nil_r; done.
    + injection He as <-. simpl. apply sublist_app; [|done].
      apply close_backlog.
Qed.

Lemma run_steady (es : list NotificationClose.Event) (s s' : Notifier) :
  steady s → NotificationClose.run s es = Some s' → steady s'.
Proof.
  revert s. induction es as [|e es IH]; intros s Hs H; simpl in H.
  - by injection H as <-.
  - destruct (NotificationClose.step s e) as [s1|] eqn:He; [|done].
    apply (IH s1); [|done]. destruct e as [e'|i]; simpl in He.
    + by apply (step_steady s s1 e').
    + injection He as <-. by apply close_steady.
Qed.

(** X12. With [closeNotification] calls anywhere in between, what is
    rendered is still taken from the [show*] calls in call order, each call
    at most once (closed ones are skipped), consecutive renders are still at
    least 100ms apart, and there is still at most one worker. *)
Theorem closes_keep_the_order (now : Z) (es : list NotificationClose.Event)
    (s : Notifier) :
  NotificationClose.run (idle now) es = Some s →
  map snd (rendered s) `sublist_of` map paramsOf (shows es)
  ∧ paced (map fst (rendered s))
  ∧ length (timers s) = (if isProcessing s then 1 else 0)%nat.
Proof.
  intros Hrun.
  pose proof (run_backlog es (idle now) s Hrun) as Hb. simpl in Hb.
  assert (Hst : steady (idle now)) by (by repeat split).
  destruct (run_steady es (idle now) s Hst Hrun) as (Hw & Hp).
  repeat split; try done.
  - etrans; [|exact Hb]. unfold backlog. by apply sublist_inserts_r.
  - unfold single_worker in Hw.
    destruct (timers s) as [|due [|]]; [| |done]; by destruct Hw as [-> _].
Qed.

Lemma closes_keep_the_order_witness :
  map snd (rendered closingEnd) `sublist_of` map paramsOf (shows closingTrace)
  ∧ paced (map fst (rendered closingEnd))
  ∧ length (timers closingEnd) = (if isProcessing closingEnd then 1 else 0)%nat.
Proof.
  apply (closes_keep_the_order 0 closingTrace closingEnd).
  vm_compute. reflexivity.
Defined.

Example closed_while_waiting_is_skipped :
  map (p_type ∘ snd) (rendered closingEnd) = [error; success]
  ∧ isProcessing closingEnd = false.
Proof. vm_compute. by split. Qed.

End NotificationCloseFacts.

(** ** Sequences of operations on the config store *)

Module ConfigOpsFacts.

Import ConfigStore ConfigOps.

Local Open Scope nat_scope.

Section Facts.

Context {Config : Type} (DEFAULT_CONFIG : Config).

Lemma apply_keeps_default (s : Store Config) (o : Op Config) :
  match o with Edit _ => config s ≠ TheDefault | _ => True end →
  defaultConfig (apply s o) = defaultConfig s.
Proof.
  destruct o as [[[data|e]|]|f|r]; simpl; try done.
  unfold edit. by destruct (config s).
Qed.

Lemma runOps_keeps_default (ops : list (Op Config)) (s : Store Config) :
  editsLoaded s ops → defaultConfig (runOps ops s) = defaultConfig s.
Proof.
  unfold runOps. revert s.
  induction ops as [|o ops IH]; intros s Hops; simpl; [done|].
  destruct Hops as [Ho Hops]. by rewrite IH, apply_keeps_default.
Qed.

(** X13. As long as every edit in place is made on a loaded document
    (after a successful [refreshConfig]), the default configuration object
    keeps the contents of [DEFAULT_CONFIG] through any sequence of
    refreshes, edits and saves, and a failing refresh then falls back to
    exactly [DEFAULT_CONFIG]. *)
Theorem default_stays_pristine (ops : list (Op Config))
    (f : ConfigStore.Failure) :
  editsLoaded (initial DEFAULT_CONFIG) ops →
  defaultConfig (runOps ops (initial DEFAULT_CONFIG)) = DEFAULT_CONFIG
  ∧ document (refreshConfig (failed f) (runOps ops (initial DEFAULT_CONFIG)))
    = DEFAULT_CONFIG.
Proof.
  intros Hops. pose proof (runOps_keeps_default ops _ Hops) as Hd.
  split; [exact Hd|]. by destruct f.
Qed.

Lemma errorsShown_app (l1 l2 : list Effect) :
  errorsShown (l1 ++ l2) = errorsShown l1 + errorsShown l2.
Proof. unfold errorsShown. by rewrite List.filter_app, length_app. Qed.

Lemma apply_errors (s : Store Config) (o : Op Config) :
  errorsShown (log (apply s o))
  = errorsShown (log s) + (if failure o then 1 else 0).
Proof.
  destruct o as [[[data|e]|]|f|[[u|e]|]]; simpl;
    rewrite ?errorsShown_app; unfold errorsShown; simpl; try lia.
  unfold edit. destruct (config s); simpl; lia.
Qed.

(** X14. Over any sequence of refreshes, edits and saves, the store shows
    one error notification for each backend call that failed (an error
    result or a rejected call) and none otherwise; a save, failed or not,
    leaves the in-memory document as it is. *)
Theorem one_notification_per_failure (ops : list (Op Config))
    (s : Store Config) :
  errorsShown (log (runOps ops s)) = errorsShown (log s) + failures ops
  ∧ (∀ r, document (saveConfig r s) = document s
          ∧ config (saveConfig r s) = config s).
Proof.
  split; [|done]. unfold runOps, failures. revert s.
  induction ops as [|o ops IH]; intros s; simpl; [lia|].
  rewrite IH, apply_errors. destruct (failure o); simpl; lia.
Qed.

End Facts.

Lemma default_stays_pristine_witness :
  defaultConfig (runOps sampleOps (initial 0)) = 0
  ∧ document (refreshConfig (failed Thrown) (runOps sampleOps (initial 0))) = 0.
Proof.
  apply (default_stays_pristine 0 sampleOps Thrown).
  simpl. repeat split; done.
Defined.

Example sample_errors :
  errorsShown (log (runOps sampleOps (initial 0))) = 2
  ∧ document (runOps sampleOps (initial 0)) = 0.
Proof. by vm_compute. Qed.

End ConfigOpsFacts.

(** ** More of the sound preferences *)

Module SettingsMoreFacts.

Import Settings SettingsMore Spec.

Ltac by_cases settings :=
  destruct settings as [es en [[ [[|[?|]]|] [[|[?|]]|] ]|]];
  simpl; repeat split; try done.

(** X15. On a [quick_action] that is present, [buildSoundPreferences]
    always returns a value, with both sources defined and every file source
    carrying a path, also when the stored [sounds] object lacks a slot or a
    path; the sources agree with what the mode and path controls show; the
    stored settings are normalized on the way; building again gives the same
    value. On a missing [quick_action] it returns undefined. *)
Theorem buildSoundPreferences_complete (settings : QuickActionsSettings) :
  buildSoundPreferences None = (None, None)
  ∧ fst (buildSoundPreferences (Some settings))
    = ensureQuickActionDefaults (Some settings)
  ∧ ∃ prefs,
      snd (buildSoundPreferences (Some settings)) = Some prefs
      ∧ complete (pref_success prefs) ∧ complete (pref_failure prefs)
      ∧ pathOf (Some (pref_success prefs))
        = successSoundPath_get (Some settings)
      ∧ pathOf (Some (pref_failure prefs))
        = failureSoundPath_get (Some settings)
      ∧ isFileSource (Some (pref_success prefs))
        = isFileSource (successSlot (Some settings))
      ∧ isFileSource (Some (pref_failure prefs))
        = isFileSource (failureSlot (Some settings))
      ∧ pref_enable_sound prefs
        = match enable_sound settings with Some b => b | None => true end
      ∧ snd (buildSoundPreferences (fst (buildSoundPreferences (Some settings))))
        = Some prefs.
Proof.
  split; [done|]. split.
  - by destruct settings as [es en [slots|]].
  - destruct settings as [[b|] en [[ [[|[?|]]|] [[|[?|]]|] ]|]];
      eexists; (split; [reflexivity|]); simpl; repeat split; done.
Qed.

(** X16. The controls of the two effects are independent: setting the mode
    or the path of one effect leaves the other effect's slot and the two
    enable flags as normalization alone leaves them, and the settings of
    the two effects can be made in either order. *)
Theorem sound_controls_are_independent (qa : option QuickActionsSettings)
    (m m' : SoundModeOption) (x y : jsstring) :
  failureSlot (successSoundMode_set m qa)
    = failureSlot (ensureQuickActionDefaults qa)
  ∧ successSlot (failureSoundMode_set m qa)
    = successSlot (ensureQuickActionDefaults qa)
  ∧ failureSlot (successSoundPath_set x qa)
    = failureSlot (ensureQuickActionDefaults qa)
  ∧ successSlot (failureSoundPath_set x qa)
    = successSlot (ensureQuickActionDefaults qa)
  ∧ (enable_sound <$> successSoundMode_set m qa)
    = (enable_sound <$> ensureQuickActionDefaults qa)
  ∧ (enable_notification <$> failureSoundPath_set x qa)
    = (enable_notification <$> ensureQuickActionDefaults qa)
  ∧ successSoundMode_set m (failureSoundMode_set m' qa)
    = failureSoundMode_set m' (successSoundMode_set m qa)
  ∧ successSoundPath_set x (failureSoundPath_set y qa)
    = failureSoundPath_set y (successSoundPath_set x qa)
  ∧ successSoundMode_set m (failureSoundPath_set y qa)
    = failureSoundPath_set y (successSoundMode_set m qa).
Proof.
  destruct qa as [settings|]; [|by repeat split].
  destruct m, m'; by_cases settings.
Qed.

(** X17. Each control reads back what was set: on a [quick_action] that is
    present, the mode getter returns the mode just set and the path getter
    the path just set or the file just chosen (the mode then being "file"),
    for both effects; a file dialog that returns an error or is rejected
    sets no slot. With no [quick_action], setters change nothing and the
    getters read "default" and the empty path. *)
Theorem sound_controls_read_back (settings : QuickActionsSettings)
    (m : SoundModeOption) (x : jsstring) (e : jsstring) :
  successSoundMode_get (successSoundMode_set m (Some settings)) = m
  ∧ failureSoundMode_get (failureSoundMode_set m (Some settings)) = m
  ∧ successSoundPath_get (successSoundPath_set x (Some settings)) = x
  ∧ failureSoundPath_get (failureSoundPath_set x (Some settings)) = x
  ∧ successSoundMode_get (successSoundPath_set x (Some settings)) = ModeFile
  ∧ failureSoundMode_get (failureSoundPath_set x (Some settings)) = ModeFile
  ∧ fst (chooseSoundFile TargetSuccess (Resolves (Ok x)) (Some settings))
    = successSoundPath_set x (Some settings)
  ∧ fst (chooseSoundFile TargetFailure (Resolves (Ok x)) (Some settings))
    = failureSoundPath_set x (Some settings)
  ∧ fst (chooseSoundFile TargetSuccess (Resolves (Err e)) (Some settings))
    = ensureQuickActionDefaults (Some settings)
  ∧ fst (chooseSoundFile TargetSuccess Rejects (Some settings))
    = Some settings
  ∧ successSoundMode_set m None = None
  ∧ successSoundPath_set x None = None
  ∧ successSoundMode_get None = ModeDefault
  ∧ successSoundPath_get None = [].
Proof.
  destruct m; by_cases settings.
Qed.

End SettingsMoreFacts.

(** ** Device management *)

Module DevicesFacts.

Import Devices Spec.

Lemma fetchDeviceInfo_config (r : Awaited (Result Device)) (s : Admin) :
  config (fetchDeviceInfo r s) = config s.
Proof. by destruct r as [[d|e]|]. Qed.





Example others_of_laptop :
  otherDevices (fetchDeviceInfo (Resolves (Ok Samples.laptop))
                  (adminOf Samples.gapGame)) = [desktop].
Proof. vm_compute. reflexivity. Qed.

(** *** Deleting a device *)

Lemma forgetEntry_forgets (deviceId : jsstring)
    (m : option (gmap jsstring jsstring)) :
  forgets deviceId m (forgetEntry deviceId m).
Proof.
  destruct m as [mp|]; simpl; [|done]. split.
  - apply lookup_delete_eq.
  - intros k Hk. by apply lookup_delete_ne.
Qed.



(** The configuration [deleteDevice] leaves when it goes through. *)
Lemma deleteDevice_config (deviceId : jsstring) (act : Management.Action)
    (save : Awaited (Result unit)) (fetch : Awaited (Result Device))
    (s : Admin) (ds : gmap jsstring Device) (gs : option (list Game))
    (target : Device) :
  config s = Some {| devices := Some ds; games := gs |} →
  id (currentDevice s) ≠ deviceId → ds !! deviceId = Some target →
  config (deleteDevice deviceId (Resolves act) save fetch s)
  = Some {| devices := Some (delete deviceId ds);
            games := match gs with
                     | Some l => Some (map (forgetGame deviceId) l)
                     | None => None
                     end |}.
Proof.
  intros Hc Hne Ht. unfold deleteDevice, read. rewrite Hc.
  rewrite bool_decide_eq_false_2 by done. rewrite Ht.
  by rewrite fetchDeviceInfo_config.
Qed.





(** No device is registered as "constructor"; deleting it asks, saves and
    reports success. *)
Example inherited_name_is_deleted :
  log (deleteDevice (str "constructor") (Resolves Management.ActConfirm)
         (Resolves (Ok ())) (Resolves (Ok Samples.laptop))
         (adminOf Samples.gapGame))
  = [Confirm; SetConfig; ShowSuccess (T "settings.delete_device_success");
     GetCurrentDeviceInfo].
Proof. vm_compute. reflexivity. Qed.

(** X21. A deleted device is no candidate any more: in no game of the
    configuration [deleteDevice] leaves does the candidate set of
    [checkCurrentDeviceSavePaths] hold it, whatever the current device. *)
Theorem deleted_device_is_no_candidate (deviceId : jsstring)
    (act : Management.Action) (save : Awaited (Result unit))
    (fetch : Awaited (Result Device)) (s : Admin)
    (ds : gmap jsstring Device) (gs : list Game) (target : Device)
    (c' : ConfigDoc) (gs' : list Game) (g' : Game)
    (units' : list SaveUnit) (current : jsstring) :
  config s = Some {| devices := Some ds; games := Some gs |} →
  id (currentDevice s) ≠ deviceId → ds !! deviceId = Some target →
  config (deleteDevice deviceId (Resolves act) save fetch s) = Some c' →
  games c' = Some gs' → g' ∈ gs' → save_paths g' = Some units' →
  deviceId ∉ Management.devicesWithPaths current units'.
Proof.
  intros Hc Hne Ht Hc' Hgs' Hg' Hu' Hin.
  rewrite (deleteDevice_config _ _ _ _ _ ds (Some gs) target Hc Hne Ht) in Hc'.
  injection Hc' as <-. simpl in Hgs'. injection Hgs' as <-.
  apply list_elem_of_In, in_map_iff in Hg' as [g [<- _]].
  simpl in Hu'. destruct (save_paths g) as [us|]; [|done].
  injection Hu' as <-.
  apply ManagementFacts.devicesWithPaths_elem in Hin as (_ & u' & Hu' & p & Hp & _).
  apply list_elem_of_In, in_map_iff in Hu' as [u [<- _]].
  simpl in Hp. destruct (forgetEntry_forgets deviceId (paths u)) as [Hnone _].
  congruence.
Qed.

Lemma deleted_device_is_no_candidate_witness :
  Samples.devA ∉ Management.devicesWithPaths Samples.devB
    [forgetUnit Samples.devA
       (Samples.folderUnit (<[Samples.devA := str "/a/save"]>
                              (<[Samples.devB := str ""]> ∅)))].
Proof.
  apply (deleted_device_is_no_candidate Samples.devA Management.ActConfirm
           (Resolves (Ok ())) (Resolves (Ok Samples.laptop))
           (adminOf Samples.gapGame) registry [Samples.gapGame] desktop
           {| devices := Some (delete Samples.devA registry);
              games := Some [forgetGame Samples.devA Samples.gapGame] |}
           [forgetGame Samples.devA Samples.gapGame]
           (forgetGame Samples.devA Samples.gapGame)).
  - reflexivity.
  - vm_compute. discriminate.
  - reflexivity.
  - reflexivity.
  - reflexivity.
  - apply list_elem_of_here.
  - reflexivity.
Defined.

(** *** Importing paths *)








(** *** First start on a device *)



(** An unregistered device called "constructor" is not asked to set itself
    up. *)
Example inherited_name_is_not_asked :
  showDeviceSetupDialog
    (checkDeviceSetup
       (Resolves (Ok {| id := str "constructor";
                        device_name := str "laptop" |}))
       (firstStart Samples.gapGame)) = false.
Proof. vm_compute. reflexivity. Qed.



(** X26. The set-up dialog never hands over a blank device name when the
    preset name is not blank, and it hands over a source device exactly
    when one was selected: the device [handleDeviceSetup] registers from
    the dialog's answer has a non-blank name. *)
Theorem dialog_name_is_not_blank (typed selected preset : jsstring)
    (save : Awaited (Result unit)) (s : App) (c : ConfigDoc) (d : Device) :
  blank preset = false →
  app_config s = Some c → app_currentDevice s = Some d →
  blank (fst (dialogConfirm typed selected preset)) = false
  ∧ (snd (dialogConfirm typed selected preset) = None ↔ selected = [])
  ∧ ∃ c' ds' x,
      app_config (handleDeviceSetup
                    (fst (dialogConfirm typed selected preset))
                    (snd (dialogConfirm typed selected preset)) save s)
      = Some c'
      ∧ devices c' = Some ds' ∧ ds' !! id d = Some x
      ∧ blank (device_name x) = false.
Proof.
  intros Hp Hc Hd.
  assert (Hname : blank (fst (dialogConfirm typed selected preset)) = false).
  { unfold dialogConfirm. cbn [fst]. rewrite JsFacts.truthy_trim.
    destruct (blank typed) eqn:Hb; [exact Hp|exact Hb]. }
  split; [exact Hname|]. split.
  - unfold dialogConfirm. cbn [snd]. by destruct selected.
  - unfold handleDeviceSetup. rewrite Hc, Hd.
    set (nm := fst (dialogConfirm typed selected preset)) in *.
    destruct (match snd (dialogConfirm typed selected preset) with
              | Some i => if truthy i then Some i else None
              | None => None
              end) as [i|]; [destruct (games c) as [gs|]|];
      eexists _, _, _; (split; [reflexivity|]); cbn [devices];
      (split; [reflexivity|]); (split; [apply lookup_insert_eq|]);
      exact Hname.
Qed.

Lemma dialog_name_is_not_blank_witness :
  blank (fst (dialogConfirm (str "  ") [] (str "laptop"))) = false.
Proof.
  refine (proj1 (dialog_name_is_not_blank (str "  ") [] (str "laptop")
                   (Resolves (Ok ())) (firstStart Samples.gapGame)
                   {| devices := Some (<[Samples.devA := desktop]> ∅);
                      games := Some [Samples.gapGame] |}
                   Samples.laptop _ _ _));
    reflexivity.
Defined.

End DevicesFacts.

(** ** The save-location drawer *)

Module DrawerFacts.

Import Drawer.





(** *** Editing and cancelling *)






(** *** The devices offered *)











Example launch_only_device_is_offered :
  map id (availableDevices
            (extractDeviceIdsFromSaveUnits
               (Some (Devices.bothDevices Samples.launchOnlyGame))
               (opened Samples.launchOnlyGame)))
  = [Samples.devB; Samples.devA].
Proof. vm_compute. reflexivity. Qed.

End DrawerFacts.

(** ** The route guard *)

Module RouterFacts.

Import Router.

Lemma startsWith_app (p r : jsstring) : startsWith (p ++ r) p = true.
Proof.
  induction p as [|a p IH]; simpl; [by destruct r|].
  by rewrite N.eqb_refl, IH.
Qed.

Lemma whitelist_prefix (prefix rest : jsstring) :
  prefix ∈ allowedPrefixes → whitelist (prefix ++ rest) = Continue.
Proof.
  intros Hin. unfold whitelist.
  assert (H : existsb (λ q, bool_decide (prefix ++ rest = q)
                            || startsWith (prefix ++ rest) q)
                allowedPrefixes = true).
  { apply existsb_exists. exists prefix. split; [by apply list_elem_of_In|].
    by rewrite startsWith_app, orb_true_r. }
  by rewrite H, orb_true_r.
Qed.

Lemma find_name (gs : list Game) (n : jsstring) :
  is_Some (find (λ x, bool_decide (name x = n)) gs)
  ↔ ∃ g, g ∈ gs ∧ name g = n.
Proof.
  induction gs as [|g gs IH]; simpl.
  - split; [by intros [? ?]|]. intros (g & H & _). by apply not_elem_of_nil in H.
  - case_bool_decide as Hn.
    + split; [|by eauto]. intros _. exists g. split; [left|done].
    + rewrite IH. split.
      * intros (g' & H & Hg'). exists g'. split; [by right|done].
      * intros (g' & H & Hg'). apply elem_of_cons in H as [->|H]; [done|].
        by exists g'.
Qed.

(** X30. The route guard lets the root and every path that begins with an
    allowed prefix through, sub-paths included; a Management route that
    names a game is let through exactly when [config.games] holds a game of
    that name, and is sent to the root otherwise. The guard never sends
    anywhere but to the root. *)
Theorem guard_admits_known_games (gs : list Game) (rest n : jsstring) :
  truthy n = true →
  (guard (Some gs) (str "/Management" ++ rest) (Some n) = Continue
   ↔ ∃ g, g ∈ gs ∧ name g = n)
  ∧ ((¬ ∃ g, g ∈ gs ∧ name g = n) →
     guard (Some gs) (str "/Management" ++ rest) (Some n)
     = NavigateTo (str "/"))
  ∧ (∀ games prefix tail, prefix ∈ allowedPrefixes →
       guard games (prefix ++ tail) None = Continue)
  ∧ (∀ games name, guard games (str "/") name = Continue)
  ∧ (∀ games fullPath name target,
       guard games fullPath name = NavigateTo target → target = str "/").
Proof.
  intros Hn.
  assert (Hw : whitelist (str "/Management" ++ rest) = Continue).
  { apply whitelist_prefix. unfold allowedPrefixes.
    do 4 apply list_elem_of_further. apply list_elem_of_here. }
  assert (Hg : guard (Some gs) (str "/Management" ++ rest) (Some n)
               = match find (λ x, bool_decide (name x = n)) gs with
                 | Some _ => Continue
                 | None => NavigateTo (str "/")
                 end).
  { unfold guard. rewrite startsWith_app, Hn. simpl andb. cbv iota.
    by rewrite Hw. }
  split; [|split; [|split; [|split]]].
  - rewrite Hg, <- find_name.
    destruct (find _ gs) as [g|].
    + split; [by eauto|done].
    + split; [done|]. by intros [? ?].
  - intros Hno. rewrite Hg. destruct (find _ gs) as [g|] eqn:Hf; [|done].
    destruct Hno. apply find_name. by rewrite Hf.
  - intros games prefix tail Hp. simpl. by apply whitelist_prefix.
  - intros games name. unfold guard.
    assert (Hroot : whitelist (str "/") = Continue) by reflexivity.
    assert (Hs : startsWith (str "/") (str "/Management") = false)
      by reflexivity.
    destruct name as [m|]; [|exact Hroot]. by rewrite Hs.
  - intros games fullPath name target. unfold guard, whitelist.
    destruct name as [m|];
      repeat (match goal with
              | |- context [if ?b then _ else _] => destruct b
              | |- context [match ?x with Some _ => _ | None => _ end] =>
                  destruct x
              end; try discriminate);
      congruence.
Qed.

Lemma guard_admits_known_games_witness :
  guard (Some [Samples.gapGame]) (str "/Management" ++ str "/Celeste")
    (Some (str "Celeste")) = Continue
  ↔ ∃ g, g ∈ [Samples.gapGame] ∧ name g = str "Celeste".
Proof.
  refine (proj1 (guard_admits_known_games [Samples.gapGame] (str "/Celeste")
                   (str "Celeste") _)).
  reflexivity.
Defined.

Example unlisted_page_is_sent_home :
  guard (Some [Samples.gapGame]) (str "/about") None = NavigateTo (str "/")
  ∧ guard (Some [Samples.gapGame]) (str "/Managementx") None = Continue
  ∧ guard (Some [Samples.gapGame]) (str "/Management/Hades")
      (Some (str "Hades")) = NavigateTo (str "/").
Proof. repeat split; vm_compute; reflexivity. Qed.

End RouterFacts.
